(** * LRU cache with per-entry TTL: a shallow embedding of package [cache]

    The embedded program is the Go package [cache] (type [cache], functions
    [NewCache], [Add], [AddWithTTL], [Get], [Remove], [Clear], [Cap],
    [deleteItem], [deleteLRU], [deleteByTTL], [StopTTLRemoval]).

    Modelling decisions:
    - [interface{}] values are dynamic values [dyn]; comparing two of them
      with [!=] follows the Go rule: identical uncomparable dynamic types
      make the comparison panic.
    - map keys are the hashable dynamic values [key]: the data model asks
      for equality and hashing on keys, and a key of an unhashable dynamic
      type makes every access to a Go map panic.
    - pointers to [list.Element] are handles; the item an element points to
      lives in a heap indexed by the handle, so that the map and the list
      alias the same mutable item.
    - [container/list] is the sequence of element handles, front first.
    - [time.Time] is an integer count of nanoseconds since the zero instant;
      [time.Now()] is an argument of the operation that reads it.
    - a runtime panic is the [Panic] outcome of the [result] type. *)

From stdpp Require Import gmap strings list fin_maps relations.

Open Scope Z_scope.

(** ** Dynamic values and keys *)

Inductive dyn : Type :=
  | DNil
  | DInt (n : Z)
  | DString (s : string)
  | DBool (b : bool)
  | DSlice (xs : list Z).

Inductive key : Type :=
  | KInt (n : Z)
  | KString (s : string)
  | KBool (b : bool).

#[global] Instance dyn_eq_dec : EqDecision dyn.
Proof. solve_decision. Defined.

#[global] Instance key_eq_dec : EqDecision key.
Proof. solve_decision. Defined.

Definition key_to_sum (k : key) : Z + string + bool :=
  match k with
  | KInt n => inl (inl n)
  | KString s => inl (inr s)
  | KBool b => inr b
  end.

Definition key_of_sum (s : Z + string + bool) : key :=
  match s with
  | inl (inl n) => KInt n
  | inl (inr s) => KString s
  | inr b => KBool b
  end.

#[global] Instance key_countable : Countable key.
Proof.
  refine (inj_countable' key_to_sum key_of_sum _).
  intros []; reflexivity.
Defined.

(** Outcome of a Go call: it returns, or it panics. *)
Inductive result (A : Type) : Type :=
  | Ok (a : A)
  | Panic (msg : string).
Arguments Ok {A} a.
Arguments Panic {A} msg.

Definition bind {A B} (r : result A) (f : A → result B) : result B :=
  match r with
  | Ok a => f a
  | Panic msg => Panic msg
  end.

Notation "'let*' x ':=' r 'in' k" := (bind r (fun x => k))
  (at level 10, x name, r at level 100, k at level 200, only parsing).

(** [a != b] on two [interface{}] values. Values of different dynamic types
    are unequal; the two operands having the same uncomparable dynamic type
    (a slice) is a runtime panic. *)
Definition go_neq (a b : dyn) : result bool :=
  match a, b with
  | DSlice _, DSlice _ => Panic "runtime error: comparing uncomparable type []int"
  | _, _ => Ok (negb (bool_decide (a = b)))
  end.

(** ** package time *)

Definition Time := Z.
Definition Duration := Z.

Definition zeroTime : Time := 0.
Definition IsZero (t : Time) : bool := t =? 0.
Definition Before (t u : Time) : bool := t <? u.
Definition After (t u : Time) : bool := u <? t.
Definition TimeAdd (t : Time) (d : Duration) : Time := t + d.

(** ** package container/list, as the sequence of its elements *)

Definition handle := nat.

Module GoList.

Definition Init : list handle := [].
Definition Len (l : list handle) : Z := Z.of_nat (length l).
Definition Front (l : list handle) : option handle := head l.
Definition Back (l : list handle) : option handle := last l.

(** [e.Next()]: the element after [e]; nil when [e] is the last element or
    is no longer in the list. *)
Fixpoint Next (e : handle) (l : list handle) : option handle :=
  match l with
  | [] => None
  | x :: l' => if decide (x = e) then head l' else Next e l'
  end.

(** [l.Remove(e)] does nothing when [e] is not an element of [l]. *)
Definition Remove (e : handle) (l : list handle) : list handle :=
  filter (λ x, x ≠ e) l.

Definition PushFront (e : handle) (l : list handle) : list handle := e :: l.

(** [l.MoveToFront(e)] does nothing when [e] is not an element of [l]. *)
Definition MoveToFront (e : handle) (l : list handle) : list handle :=
  if decide (e ∈ l) then e :: Remove e l else l.

End GoList.

(** ** The cache *)

Record item : Type := mkItem {
  ikey : key;
  ivalue : dyn;
  ttl : Time
}.

(** [order] is the field [list] of the source; [heap] holds the item behind
    each element and [next] is the next handle the allocator hands out. *)
Record cache : Type := mkCache {
  capacity : Z;
  items : gmap key handle;
  order : list handle;
  heap : gmap handle item;
  next : handle
}.

#[global] Instance item_eq_dec : EqDecision item.
Proof. solve_decision. Defined.

Definition set_items (m : gmap key handle) (c : cache) : cache :=
  mkCache (capacity c) m (order c) (heap c) (next c).
Definition set_order (l : list handle) (c : cache) : cache :=
  mkCache (capacity c) (items c) l (heap c) (next c).
Definition set_heap (hp : gmap handle item) (c : cache) : cache :=
  mkCache (capacity c) (items c) (order c) hp (next c).

(** The type assertion of [elem.Value] to a pointer to [item]: it panics when
    the element does not carry an item. *)
Definition item_of (c : cache) (elem : handle) : result item :=
  match heap c !! elem with
  | Some it => Ok it
  | None => Panic "interface conversion: interface {} is nil, not *cache.item"
  end.

(** [c.list.PushFront(newItem)]: allocates the element and links it. *)
Definition push_front (newItem : item) (c : cache) : handle * cache :=
  let elem := next c in
  (elem, mkCache (capacity c) (items c) (GoList.PushFront elem (order c))
                 (<[elem := newItem]> (heap c)) (S elem)).

Inductive error : Type := errors_New (msg : string).

Definition NewCache (cap : Z) : option cache * option error :=
  if cap <=? 0 then (None, Some (errors_New "invalid capacity"))
  else (Some (mkCache cap ∅ GoList.Init ∅ 0%nat), None).

Definition deleteItem (k : key) (c : cache) : result cache :=
  match items c !! k with
  | Some elem =>
      let c1 := set_order (GoList.Remove elem (order c)) c in
      let* it := item_of c1 elem in
      Ok (set_items (delete (ikey it) (items c1)) c1)
  | None => Ok c
  end.

Definition deleteLRU (c : cache) : result cache :=
  match GoList.Back (order c) with
  | Some elem =>
      let c1 := set_order (GoList.Remove elem (order c)) c in
      let* it := item_of c1 elem in
      Ok (set_items (delete (ikey it) (items c1)) c1)
  | None => Ok c
  end.

Definition Cap (c : cache) : Z := capacity c.

Definition Clear (c : cache) : cache :=
  set_order GoList.Init (set_items ∅ c).

Definition Add (k : key) (value : dyn) (c : cache) : result cache :=
  match items c !! k with
  | Some elem =>
      let* it := item_of c elem in
      let* ne := go_neq (ivalue it) value in
      let it1 := if ne : bool then mkItem (ikey it) value (ttl it) else it in
      let it2 := mkItem (ikey it1) (ivalue it1) zeroTime in
      let c1 := set_heap (<[elem := it2]> (heap c)) c in
      Ok (set_order (GoList.MoveToFront elem (order c1)) c1)
  | None =>
      let* c1 := (if GoList.Len (order c) >=? capacity c then deleteLRU c else Ok c) in
      let newItem := mkItem k value zeroTime in
      let '(elem, c2) := push_front newItem c1 in
      Ok (set_items (<[k := elem]> (items c2)) c2)
  end.

Definition AddWithTTL (k : key) (value : dyn) (d : Duration) (now : Time)
    (c : cache) : result cache :=
  match items c !! k with
  | Some elem =>
      let* it := item_of c elem in
      let* ne := go_neq (ivalue it) value in
      let it1 := if ne : bool then mkItem (ikey it) value (ttl it) else it in
      let it2 := mkItem (ikey it1) (ivalue it1) (TimeAdd now d) in
      let c1 := set_heap (<[elem := it2]> (heap c)) c in
      Ok (set_order (GoList.MoveToFront elem (order c1)) c1)
  | None =>
      let* c1 := (if GoList.Len (order c) >=? capacity c then deleteLRU c else Ok c) in
      let newItem := mkItem k value (TimeAdd now d) in
      let '(elem, c2) := push_front newItem c1 in
      Ok (set_items (<[k := elem]> (items c2)) c2)
  end.

(** [Get] returns the value, the [ok] flag and the cache after the call. *)
Definition Get (k : key) (now : Time) (c : cache) : result (dyn * bool * cache) :=
  match items c !! k with
  | None => Ok (DNil, false, c)
  | Some elem =>
      let* it := item_of c elem in
      if negb (IsZero (ttl it)) && Before (ttl it) now then
        let* c1 := deleteItem (ikey it) c in
        Ok (DNil, false, c1)
      else
        Ok (ivalue it, true, set_order (GoList.MoveToFront elem (order c)) c)
  end.

Definition Remove (k : key) (c : cache) : result cache := deleteItem k c.

(** One tick of [deleteByTTL]: the loop that follows [Next] pointers from the
    front. [clk i] is what [time.Now()] returns in the [i]-th iteration.
    [None] means the fuel ran out before the loop ended. *)
Fixpoint sweep_loop (fuel : nat) (clk : nat → Time) (i : nat)
    (elem : option handle) (c : cache) : option (result cache) :=
  match elem with
  | None => Some (Ok c)
  | Some e =>
      match fuel with
      | O => None
      | S fuel' =>
          let nxt := GoList.Next e (order c) in
          match item_of c e with
          | Panic msg => Some (Panic msg)
          | Ok it =>
              if Before (ttl it) (clk i) then
                match deleteItem (ikey it) c with
                | Panic msg => Some (Panic msg)
                | Ok c1 => sweep_loop fuel' clk (S i) nxt c1
                end
              else sweep_loop fuel' clk (S i) nxt c
          end
      end
  end.

Definition sweep (clk : nat → Time) (c : cache) : option (result cache) :=
  sweep_loop (length (order c)) clk 0%nat (GoList.Front (order c)) c.

(** The common shape of [Add] and [AddWithTTL]: they differ only in the
    expiry [t] they store. Used to prove facts about both at once. *)
Definition upsert (k : key) (value : dyn) (t : Time) (c : cache) : result cache :=
  match items c !! k with
  | Some elem =>
      let* it := item_of c elem in
      let* ne := go_neq (ivalue it) value in
      let it1 := if ne : bool then mkItem (ikey it) value (ttl it) else it in
      let it2 := mkItem (ikey it1) (ivalue it1) t in
      let c1 := set_heap (<[elem := it2]> (heap c)) c in
      Ok (set_order (GoList.MoveToFront elem (order c1)) c1)
  | None =>
      let* c1 := (if GoList.Len (order c) >=? capacity c then deleteLRU c else Ok c) in
      let newItem := mkItem k value t in
      let '(elem, c2) := push_front newItem c1 in
      Ok (set_items (<[k := elem]> (items c2)) c2)
  end.

(** ** Runs of the cache: the operations a caller or the reaper performs,
    each under the cache lock. *)

Inductive op : Type :=
  | OpAdd (k : key) (v : dyn)
  | OpAddWithTTL (k : key) (v : dyn) (d : Duration) (now : Time)
  | OpGet (k : key) (now : Time)
  | OpRemove (k : key)
  | OpClear
  | OpSweep (clk : nat → Time).

Definition returned {A} (r : result A) : option A :=
  match r with Ok a => Some a | Panic _ => None end.

(** The cache an operation leaves behind when it returns. *)
Definition run_op (o : op) (c : cache) : option cache :=
  match o with
  | OpAdd k v => returned (Add k v c)
  | OpAddWithTTL k v d now => returned (AddWithTTL k v d now c)
  | OpGet k now => snd <$> returned (Get k now c)
  | OpRemove k => returned (Remove k c)
  | OpClear => Some (Clear c)
  | OpSweep clk => sweep clk c ≫= returned
  end.

Definition is_public (o : op) : bool :=
  match o with OpSweep _ => false | _ => true end.

(** [runs c0 c]: some sequence of completed operations leads from [c0] to [c]. *)
Inductive runs (c0 : cache) : cache → Prop :=
  | runs_refl : runs c0 c0
  | runs_step o c c' : runs c0 c → run_op o c = Some c' → runs c0 c'.

Definition reachable (c : cache) : Prop :=
  ∃ cap c0, NewCache cap = (Some c0, None) ∧ runs c0 c.

Fixpoint run_ops (os : list op) (c : cache) : option cache :=
  match os with
  | [] => Some c
  | o :: os' => run_op o c ≫= run_ops os'
  end.

(** The key of the item behind an element. *)
Definition key_at (hp : gmap handle item) (h : handle) : key :=
  match hp !! h with Some it => ikey it | None => KInt 0 end.

(** The representation invariant: the list has no repeated element, the map
    sends exactly the keys of the listed items to their elements, and the
    list is within the capacity. *)
Record Inv (c : cache) : Prop := mkInv {
  inv_nodup : NoDup (order c);
  inv_items : ∀ k h, items c !! k = Some h ↔
                h ∈ order c ∧ ∃ it, heap c !! h = Some it ∧ ikey it = k;
  inv_heap : ∀ h, h ∈ order c → is_Some (heap c !! h);
  inv_cap : 0 < capacity c;
  inv_len : Z.of_nat (length (order c)) ≤ capacity c;
  inv_next : ∀ h, h ∈ order c → (h < next c)%nat
}.

(** Elements that survive a sweep over [l], the [i]-th reading of the clock
    being the one used for the head of [l]. *)
Fixpoint survivors (hp : gmap handle item) (clk : nat → Time) (i : nat)
    (l : list handle) : list handle :=
  match l with
  | [] => []
  | h :: l' =>
      match hp !! h with
      | Some it =>
          if Before (ttl it) (clk i) then survivors hp clk (S i) l'
          else h :: survivors hp clk (S i) l'
      | None => h :: survivors hp clk (S i) l'
      end
  end.

(** What the data model asks of the index and the recency list. *)
Definition lockstep (c : cache) : Prop :=
  NoDup (order c)
  ∧ NoDup (key_at (heap c) <$> order c)
  ∧ (∀ h, h ∈ order c ↔ ∃ k, items c !! k = Some h)
  ∧ (∀ k h, items c !! k = Some h → ∃ it, heap c !! h = Some it ∧ ikey it = k)
  ∧ GoList.Len (order c) = Z.of_nat (size (items c))
  ∧ Z.of_nat (size (items c)) ≤ capacity c.

(** [Add] or [AddWithTTL] of key [k] and value [v]. *)
Definition inserts (k : key) (v : dyn) (f : cache → result cache) : Prop :=
  f = Add k v ∨ ∃ d now, f = AddWithTTL k v d now.

(** ** The reaper goroutine and the [done] channel

    [done] is an unbuffered channel: the send in [StopTTLRemoval] completes
    only in a rendezvous with the receive of the [select] in [deleteByTTL],
    after which the goroutine stops its ticker and returns. *)
Module Reaper.

Inductive phase : Type := Running | Stopped.

Record state : Type := mkState {
  reaper : phase;
  ticker_armed : bool;
  (** callers inside [StopTTLRemoval], blocked on the send *)
  blocked_senders : nat;
  (** calls of [StopTTLRemoval] that have returned *)
  stops_returned : nat
}.

Inductive event : Type :=
  | Tick        (** the [select] takes [ticker.C]: one sweep *)
  | CallStop    (** a caller enters [StopTTLRemoval] and reaches the send *)
  | Handshake.  (** the [select] takes [done] from a blocked sender *)

(** The state [NewCache] leaves: the goroutine runs with its ticker. *)
Definition start : state := mkState Running true 0 0.

Definition step (e : event) (s : state) : option state :=
  match e, reaper s with
  | Tick, Running => Some s
  | Tick, Stopped => None
  | CallStop, _ =>
      Some (mkState (reaper s) (ticker_armed s) (S (blocked_senders s))
                    (stops_returned s))
  | Handshake, Running =>
      match blocked_senders s with
      | O => None
      | S n => Some (mkState Stopped false n (S (stops_returned s)))
      end
  | Handshake, Stopped => None
  end.

Fixpoint exec (es : list event) (s : state) : option state :=
  match es with
  | [] => Some s
  | e :: es' => step e s ≫= exec es'
  end.

End Reaper.

(** ** The [Get] of the first draft (package [main])

    That draft has no [AddWithTTL]. Its [Get] tests the expiry with [After]
    and, in the expired branch, calls [Remove], which locks the mutex that
    [Get] already holds: the call never returns. *)
Module Draft.

Inductive outcome (A : Type) : Type :=
  | Returns (a : A)
  | Blocks.
Arguments Returns {A} a.
Arguments Blocks {A}.

Definition Get (k : key) (now : Time) (c : cache)
    : outcome (result (dyn * bool * cache)) :=
  match items c !! k with
  | None => Returns (Ok (DNil, false, c))
  | Some elem =>
      match item_of c elem with
      | Panic msg => Returns (Panic msg)
      | Ok it =>
          if After (ttl it) now then Blocks
          else Returns (Ok (ivalue it, true,
                            set_order (GoList.MoveToFront elem (order c)) c))
      end
  end.

End Draft.

(** ** Enumerating the cache *)

(** The item behind an element; the items of the list, front first. *)
Definition item_at (hp : gmap handle item) (h : handle) : item :=
  default (mkItem (KInt 0) DNil zeroTime) (hp !! h).

Definition listing (c : cache) : list item := item_at (heap c) <$> order c.

(** [getAllItems]: the loop walks the list from the front and appends the
    key and the value of each element. [None] means the fuel ran out. *)
Fixpoint getAllItems_loop (fuel : nat) (elem : option handle) (c : cache)
    (keys : list key) (values : list dyn)
    : option (result (list key * list dyn)) :=
  match elem with
  | None => Some (Ok (keys, values))
  | Some e =>
      match fuel with
      | O => None
      | S fuel' =>
          let nxt := GoList.Next e (order c) in
          match item_of c e with
          | Panic msg => Some (Panic msg)
          | Ok it =>
              getAllItems_loop fuel' nxt c (keys ++ [ikey it])
                               (values ++ [ivalue it])
          end
      end
  end.

Definition getAllItems (c : cache) : option (result (list key * list dyn)) :=
  getAllItems_loop (length (order c)) (GoList.Front (order c)) c [] [].

(** A run of [Add] calls, one per pair, in the order of the list. *)
Fixpoint add_all (kvs : list (key * dyn)) (c : cache) : result cache :=
  match kvs with
  | [] => Ok c
  | (k, v) :: kvs' => let* c1 := Add k v c in add_all kvs' c1
  end.

(** The item [Add] stores for a pair. *)
Definition entry (kv : key * dyn) : item := mkItem kv.1 kv.2 zeroTime.

(** ** Package [main] (the first draft)

    Its [NewCache], [Cap], [Clear] and [Add] read as those above
    ([deleteCacheItem] is [deleteLRU]), its [Remove] is the body of
    [deleteItem] under the lock, and its [Get] is [Draft.Get]; it has no
    [AddWithTTL] and starts no reaper. *)
Module MainGo.

Inductive op : Type :=
  | MAdd (k : key) (v : dyn)
  | MGet (k : key) (now : Time)
  | MRemove (k : key)
  | MClear.

Definition run_op (o : op) (c : cache) : option cache :=
  match o with
  | MAdd k v => returned (Add k v c)
  | MGet k now =>
      match Draft.Get k now c with
      | Draft.Returns r => snd <$> returned r
      | Draft.Blocks => None
      end
  | MRemove k => returned (Remove k c)
  | MClear => Some (Clear c)
  end.

Fixpoint run_ops (os : list op) (c : cache) : option cache :=
  match os with
  | [] => Some c
  | o :: os' => run_op o c ≫= run_ops os'
  end.

End MainGo.

(** No item of the heap carries an expiry. *)
Definition no_expiry (c : cache) : Prop :=
  ∀ h it, heap c !! h = Some it → ttl it = zeroTime.

(** ** The [Get] of the second draft

    It tests [ttl.Before(time.Now())] with no [IsZero] guard and, in the
    expired branch, calls [Remove], which locks the mutex [Get] holds. *)
Module Part001.

Definition Get (k : key) (now : Time) (c : cache)
    : Draft.outcome (result (dyn * bool * cache)) :=
  match items c !! k with
  | None => Draft.Returns (Ok (DNil, false, c))
  | Some elem =>
      match item_of c elem with
      | Panic msg => Draft.Returns (Panic msg)
      | Ok it =>
          if Before (ttl it) now then Draft.Blocks
          else Draft.Returns
                 (Ok (ivalue it, true,
                      set_order (GoList.MoveToFront elem (order c)) c))
      end
  end.

End Part001.

#[global] Instance event_eq_dec : EqDecision Reaper.event.
Proof. solve_decision. Defined.

(** Number of [StopTTLRemoval] calls in a run of the reaper. *)
Definition stop_calls (es : list Reaper.event) : nat :=
  length (filter (λ e, e = Reaper.CallStop) es).

(** ** Caches used as concrete inputs *)

Definition kA : key := KString "A".
Definition kB : key := KString "B".
Definition kC : key := KString "C".
Definition kD : key := KString "D".

Definition cache3 : cache := mkCache 3 ∅ GoList.Init ∅ 0%nat.

Definition ops_abc_getA : list op :=
  [OpAdd kA (DInt 1); OpAdd kB (DInt 2); OpAdd kC (DInt 3); OpGet kA 5].

(** Capacity 3 after [Add(A,1)], [Add(B,2)], [Add(C,3)], [Get(A)]. *)
Definition cache_abc : cache :=
  Eval vm_compute in default cache3 (run_ops ops_abc_getA cache3).

(** ... and then [Add(D,4)]. *)
Definition cache_abcd : cache :=
  Eval vm_compute in default cache3 (run_op (OpAdd kD (DInt 4)) cache_abc).

Definition ops_mixed : list op :=
  [OpAdd kA (DInt 1); OpAddWithTTL kB (DInt 2) 50 50].

(** A permanent entry [A] and an entry [B] that expires at instant 100. *)
Definition cache_mixed : cache :=
  Eval vm_compute in default cache3 (run_ops ops_mixed cache3).

(** One entry added at instant 100 with a TTL of zero: it expires at 100. *)
Definition cache_ttl : cache :=
  Eval vm_compute in
    default cache3 (run_op (OpAddWithTTL kA (DInt 7) 0 100) cache3).

(** [cache_mixed] after a sweep whose clock reads 100 throughout. *)
Definition cache_swept : cache :=
  Eval vm_compute in
    default cache3 (run_op (OpSweep (λ _, 100)) cache_mixed).

(** One entry whose value is a slice. *)
Definition cache_slice : cache :=
  Eval vm_compute in default cache3 (run_op (OpAdd (KInt 1) (DSlice [1])) cache3).

(** * Facts about the list *)

Section golist.
Import GoList.
Implicit Types (e x : handle) (l : list handle).

Lemma Remove_elem_of e x l : x ∈ Remove e l ↔ x ∈ l ∧ x ≠ e.
Proof. unfold Remove. rewrite list_elem_of_filter. tauto. Qed.

Lemma Remove_NoDup e l : NoDup l → NoDup (Remove e l).
Proof. apply NoDup_filter. Qed.

Lemma Remove_notin e l : e ∉ l → Remove e l = l.
Proof.
  unfold Remove. induction l as [|x l IH]; intros Hn; [done|].
  apply not_elem_of_cons in Hn as [Hne Hn].
  rewrite filter_cons_True by congruence. by rewrite IH.
Qed.

Lemma Remove_cons_eq e l : e ∉ l → Remove e (e :: l) = l.
Proof.
  intros Hn. unfold Remove. rewrite filter_cons_False by (intros H; by apply H).
  by apply Remove_notin.
Qed.

Lemma Remove_cons_ne e x l : x ≠ e → Remove e (x :: l) = x :: Remove e l.
Proof. intros Hne. unfold Remove. by rewrite filter_cons_True. Qed.

Lemma Remove_mid kept e rest :
  NoDup (kept ++ e :: rest) → Remove e (kept ++ e :: rest) = kept ++ rest.
Proof.
  induction kept as [|x kept IH]; simpl; intros Hnd.
  - apply NoDup_cons in Hnd as [Hn _]. by apply Remove_cons_eq.
  - apply NoDup_cons in Hnd as [Hn Hnd].
    rewrite Remove_cons_ne; [by rewrite IH|].
    intros ->. apply Hn. apply elem_of_app. right. apply list_elem_of_here.
Qed.

Lemma Remove_length e l :
  NoDup l → e ∈ l → S (length (Remove e l)) = length l.
Proof.
  intros Hnd Hin. apply list_elem_of_split in Hin as (l1 & l2 & ->).
  rewrite Remove_mid by done. rewrite !length_app. simpl. lia.
Qed.

Lemma Next_mid kept e rest :
  NoDup (kept ++ e :: rest) → Next e (kept ++ e :: rest) = head rest.
Proof.
  induction kept as [|x kept IH]; simpl; intros Hnd.
  - by rewrite decide_True.
  - apply NoDup_cons in Hnd as [Hn Hnd].
    rewrite decide_False; [by apply IH|].
    intros ->. apply Hn. apply elem_of_app. right. apply list_elem_of_here.
Qed.

Lemma Remove_not_elem_of e l : e ∉ Remove e l.
Proof. rewrite Remove_elem_of. intros [_ Hne]. by apply Hne. Qed.

Lemma elem_of_front e x l : e ∈ l → x ∈ e :: Remove e l ↔ x ∈ l.
Proof.
  rewrite elem_of_cons, Remove_elem_of. intros He.
  destruct (decide (x = e)) as [->|Hne].
  - split; [done|by left].
  - split; [by intros [?|[? _]]|by right].
Qed.

Lemma MoveToFront_elem_of e x l : x ∈ MoveToFront e l ↔ x ∈ l.
Proof.
  unfold MoveToFront. case_decide as He; [|done]. by apply elem_of_front.
Qed.

Lemma MoveToFront_NoDup e l : NoDup l → NoDup (MoveToFront e l).
Proof.
  intros Hnd. unfold MoveToFront. case_decide; [|done].
  apply NoDup_cons. split; [|by apply Remove_NoDup].
  apply Remove_not_elem_of.
Qed.

Lemma MoveToFront_length e l : NoDup l → length (MoveToFront e l) = length l.
Proof.
  intros Hnd. unfold MoveToFront. case_decide; [|done].
  simpl. by apply Remove_length.
Qed.

Lemma MoveToFront_front e l : e ∉ l → MoveToFront e (e :: l) = e :: l.
Proof.
  intros Hn. unfold MoveToFront. rewrite decide_True by apply list_elem_of_here.
  by rewrite Remove_cons_eq.
Qed.

End golist.

(** * The representation invariant *)

Section invariant.
Import GoList.
Implicit Types (c : cache) (k : key) (h : handle) (it : item).

Lemma Inv_new cap : 0 < cap → Inv (mkCache cap ∅ Init ∅ 0%nat).
Proof.
  intros Hcap. split; simpl; try done.
  - apply NoDup_nil_2.
  - intros k h. rewrite lookup_empty. split; [done|].
    intros [Hin _]. by apply elem_of_nil in Hin.
  - intros h Hin. by apply elem_of_nil in Hin.
  - lia.
  - intros h Hin. by apply elem_of_nil in Hin.
Qed.

Lemma Inv_lookup c k h :
  Inv c → items c !! k = Some h →
  h ∈ order c ∧ ∃ it, heap c !! h = Some it ∧ ikey it = k.
Proof. intros HI. apply (inv_items c HI). Qed.

Lemma Inv_listed c h :
  Inv c → h ∈ order c →
  ∃ it, heap c !! h = Some it ∧ items c !! ikey it = Some h.
Proof.
  intros HI Hin. destruct (inv_heap c HI h Hin) as [it Hit].
  exists it. split; [done|]. apply (inv_items c HI). eauto.
Qed.

(** Unlinking the element of key [k] and deleting [k] from the map. *)
Lemma Inv_unlink c k h :
  Inv c → items c !! k = Some h →
  Inv (mkCache (capacity c) (delete k (items c)) (Remove h (order c))
               (heap c) (next c)).
Proof.
  intros HI Hk. pose proof (Inv_lookup c k h HI Hk) as (Hin & it & Hit & Hkey).
  split; simpl.
  - apply Remove_NoDup, HI.
  - intros k' h'. rewrite Remove_elem_of. destruct (decide (k' = k)) as [->|Hne].
    + rewrite lookup_delete_eq. split; [done|].
      intros [[Hin' Hneq] Hit'].
      assert (items c !! k = Some h') as Hk' by (by apply (inv_items c HI)).
      congruence.
    + rewrite lookup_delete_ne by done. rewrite (inv_items c HI).
      split; [|tauto]. intros [Hin' (it' & Hit' & Hkey')].
      split; [split; [done|]|eauto]. intros ->. congruence.
  - intros h' [Hin' _]%Remove_elem_of. by apply (inv_heap c HI).
  - apply HI.
  - pose proof (inv_len c HI). pose proof (Remove_length h (order c) (inv_nodup c HI) Hin).
    lia.
  - intros h' [Hin' _]%Remove_elem_of. by apply (inv_next c HI).
Qed.

Lemma deleteItem_absent c k : items c !! k = None → deleteItem k c = Ok c.
Proof. intros Hk. unfold deleteItem. by rewrite Hk. Qed.

Lemma deleteItem_present c k h :
  Inv c → items c !! k = Some h →
  deleteItem k c =
    Ok (mkCache (capacity c) (delete k (items c)) (Remove h (order c))
                (heap c) (next c)).
Proof.
  intros HI Hk. pose proof (Inv_lookup c k h HI Hk) as (Hin & it & Hit & Hkey).
  unfold deleteItem, item_of. rewrite Hk. simpl. rewrite Hit. simpl.
  by rewrite Hkey.
Qed.

Lemma deleteLRU_empty c : order c = [] → deleteLRU c = Ok c.
Proof. intros Hl. unfold deleteLRU, Back. by rewrite Hl. Qed.

Lemma deleteLRU_back c rest victim :
  Inv c → order c = rest ++ [victim] →
  ∃ it, heap c !! victim = Some it ∧ items c !! ikey it = Some victim ∧
    deleteLRU c =
      Ok (mkCache (capacity c) (delete (ikey it) (items c)) rest
                  (heap c) (next c)).
Proof.
  intros HI Hl.
  assert (victim ∈ order c) as Hin.
  { rewrite Hl. apply elem_of_app. right. apply list_elem_of_here. }
  destruct (Inv_listed c victim HI Hin) as (it & Hit & Hk).
  exists it. split; [done|]. split; [done|].
  unfold deleteLRU, Back, item_of. rewrite Hl, last_snoc. simpl. rewrite Hit. simpl.
  pose proof (inv_nodup c HI) as Hnd. rewrite Hl in Hnd.
  rewrite (Remove_mid rest victim []) by done. by rewrite app_nil_r.
Qed.

Lemma deleteLRU_Inv c rest victim c' :
  Inv c → order c = rest ++ [victim] → deleteLRU c = Ok c' →
  Inv c' ∧ order c' = rest ∧ heap c' = heap c ∧ next c' = next c
  ∧ capacity c' = capacity c.
Proof.
  intros HI Hl Hd.
  destruct (deleteLRU_back c rest victim HI Hl) as (it & Hit & Hk & Heq).
  rewrite Heq in Hd. injection Hd as <-. simpl. split; [|done].
  pose proof (Inv_unlink c _ _ HI Hk) as HI'.
  pose proof (inv_nodup c HI) as Hnd. rewrite Hl in Hnd.
  rewrite Hl, (Remove_mid rest victim []), app_nil_r in HI' by done.
  done.
Qed.

End invariant.

(** * Insertion, update and lookup on an intact cache *)

Section operations.
Implicit Types (c : cache) (k : key) (h : handle) (it : item) (v : dyn).

Lemma Add_upsert k v c : Add k v c = upsert k v zeroTime c.
Proof. reflexivity. Qed.

Lemma AddWithTTL_upsert k v d now c :
  AddWithTTL k v d now c = upsert k v (TimeAdd now d) c.
Proof. reflexivity. Qed.

Lemma go_neq_Ok a b ne : go_neq a b = Ok ne → ne = negb (bool_decide (a = b)).
Proof. destruct a, b; simpl; congruence. Qed.

Lemma go_neq_Panic a b msg :
  go_neq a b = Panic msg ↔
  (∃ xs ys, a = DSlice xs ∧ b = DSlice ys)
  ∧ msg = "runtime error: comparing uncomparable type []int"%string.
Proof.
  split.
  - destruct a, b; simpl; try discriminate. intros [= <-]. eauto.
  - intros [(xs & ys & -> & ->) ->]. reflexivity.
Qed.

(** Rewriting the item of a listed element, key unchanged, and moving the
    element to the front. *)
Lemma Inv_front c h it' :
  Inv c → h ∈ order c →
  (∃ it, heap c !! h = Some it ∧ ikey it = ikey it') →
  Inv (mkCache (capacity c) (items c) (h :: GoList.Remove h (order c))
               (<[h := it']> (heap c)) (next c)).
Proof.
  intros HI Hin (it & Hit & Hkey).
  assert (∀ x, x ∈ h :: GoList.Remove h (order c) ↔ x ∈ order c) as Hmem.
  { intros x. by apply elem_of_front. }
  split; simpl.
  - apply NoDup_cons. split; [|apply Remove_NoDup, HI].
    apply Remove_not_elem_of.
  - intros k' h'. rewrite Hmem, (inv_items c HI).
    destruct (decide (h' = h)) as [->|Hne].
    + rewrite lookup_insert_eq, Hit. split.
      * intros [_ (it0 & [= <-] & <-)]. eauto.
      * intros [_ (it0 & [= <-] & <-)]. eauto.
    + by rewrite lookup_insert_ne.
  - intros h' Hin'%Hmem. destruct (decide (h' = h)) as [->|Hne].
    + rewrite lookup_insert_eq. eauto.
    + rewrite lookup_insert_ne by done. by apply (inv_heap c HI).
  - apply HI.
  - pose proof (inv_len c HI).
    pose proof (Remove_length h (order c) (inv_nodup c HI) Hin). lia.
  - intros h' Hin'%Hmem. by apply (inv_next c HI).
Qed.

(** Linking a fresh element for a key the map does not hold. *)
Lemma Inv_push c k v t :
  Inv c → items c !! k = None →
  Z.of_nat (length (order c)) < capacity c →
  Inv (mkCache (capacity c) (<[k := next c]> (items c)) (next c :: order c)
               (<[next c := mkItem k v t]> (heap c)) (S (next c))).
Proof.
  intros HI Hk Hlen.
  assert (next c ∉ order c) as Hfresh.
  { intros Hin. apply (inv_next c HI) in Hin. lia. }
  split; simpl.
  - apply NoDup_cons. split; [done|apply HI].
  - intros k' h'. rewrite elem_of_cons.
    destruct (decide (k' = k)) as [->|Hkne].
    + rewrite lookup_insert_eq. split.
      * intros [= <-]. split; [by left|]. rewrite lookup_insert_eq. eauto.
      * intros [[->|Hin] (it & Hit & Hkey)]; [done|].
        rewrite lookup_insert_ne in Hit by (intros <-; done).
        assert (items c !! k = Some h') by (apply (inv_items c HI); eauto).
        congruence.
    + rewrite lookup_insert_ne by done. rewrite (inv_items c HI). split.
      * intros [Hin (it & Hit & Hkey)]. split; [by right|].
        exists it. rewrite lookup_insert_ne by (intros <-; done). done.
      * intros [[->|Hin] (it & Hit & Hkey)].
        { rewrite lookup_insert_eq in Hit. injection Hit as <-. done. }
        rewrite lookup_insert_ne in Hit by (intros <-; done). eauto.
  - intros h' [->|Hin]%elem_of_cons.
    + rewrite lookup_insert_eq. eauto.
    + rewrite lookup_insert_ne by (intros <-; done). by apply (inv_heap c HI).
  - apply HI.
  - lia.
  - intros h' [->|Hin]%elem_of_cons; [lia|].
    apply (inv_next c HI) in Hin. lia.
Qed.

(** The update path: the key is in the map. *)
Lemma upsert_existing c k v t h it :
  Inv c → items c !! k = Some h → heap c !! h = Some it →
  upsert k v t c =
    match go_neq (ivalue it) v with
    | Panic msg => Panic msg
    | Ok _ =>
        Ok (mkCache (capacity c) (items c) (h :: GoList.Remove h (order c))
                    (<[h := mkItem k v t]> (heap c)) (next c))
    end.
Proof.
  intros HI Hk Hit.
  pose proof (Inv_lookup c k h HI Hk) as (Hin & it' & Hit' & Hkey).
  assert (it' = it) as -> by congruence.
  unfold upsert, item_of. rewrite Hk, Hit. simpl.
  destruct (go_neq (ivalue it) v) as [ne|msg] eqn:Hne; simpl; [|done].
  unfold GoList.MoveToFront. rewrite decide_True by done.
  apply go_neq_Ok in Hne. destruct ne; simpl; rewrite ?Hkey; [done|].
  symmetry in Hne. apply negb_false_iff, bool_decide_eq_true in Hne.
  by rewrite Hne.
Qed.

(** The insertion path: the key is new. The back element is evicted first
    when the list has reached the capacity. *)
Lemma upsert_room c k v t :
  items c !! k = None → Z.of_nat (length (order c)) < capacity c →
  upsert k v t c =
    Ok (mkCache (capacity c) (<[k := next c]> (items c)) (next c :: order c)
                (<[next c := mkItem k v t]> (heap c)) (S (next c))).
Proof.
  intros Hk Hlen. unfold upsert, GoList.Len. rewrite Hk.
  destruct (Z.geb_spec (Z.of_nat (length (order c))) (capacity c)); [lia|].
  reflexivity.
Qed.

Lemma upsert_full c k v t :
  Inv c → items c !! k = None → Z.of_nat (length (order c)) = capacity c →
  ∃ rest victim itv,
    order c = rest ++ [victim] ∧ heap c !! victim = Some itv
    ∧ items c !! ikey itv = Some victim
    ∧ upsert k v t c =
        Ok (mkCache (capacity c)
              (<[k := next c]> (delete (ikey itv) (items c)))
              (next c :: rest)
              (<[next c := mkItem k v t]> (heap c)) (S (next c))).
Proof.
  intros HI Hk Hlen.
  destruct (order c) as [|x l] eqn:Hl using rev_ind.
  { pose proof (inv_cap c HI). simpl in Hlen. lia. }
  clear IHl.
  destruct (deleteLRU_back c l x HI Hl) as (itv & Hitv & Hkv & Hdel).
  exists l, x, itv. do 3 (split; [done|]).
  unfold upsert, GoList.Len. rewrite Hk, Hl.
  destruct (Z.geb_spec (Z.of_nat (length (l ++ [x]))) (capacity c)); [|lia].
  rewrite Hdel. reflexivity.
Qed.

Lemma upsert_Inv c k v t c' : Inv c → upsert k v t c = Ok c' → Inv c'.
Proof.
  intros HI Hup. destruct (items c !! k) as [h|] eqn:Hk.
  - pose proof (Inv_lookup c k h HI Hk) as (Hin & it & Hit & Hkey).
    rewrite (upsert_existing c k v t h it) in Hup by done.
    destruct (go_neq (ivalue it) v); [|done]. injection Hup as <-.
    apply (Inv_front c h (mkItem k v t)); eauto.
  - pose proof (inv_len c HI) as Hle.
    destruct (decide (Z.of_nat (length (order c)) = capacity c)) as [Heq|Hne].
    + destruct (upsert_full c k v t HI Hk Heq)
        as (rest & victim & itv & Hl & Hitv & Hkv & Heq').
      rewrite Heq' in Hup. injection Hup as <-.
      pose proof (Inv_unlink c _ _ HI Hkv) as HI1.
      pose proof (inv_nodup c HI) as Hnd. rewrite Hl in Hnd.
      rewrite Hl, (Remove_mid rest victim []), app_nil_r in HI1 by done.
      apply (Inv_push _ k v t) in HI1; simpl in *; [done| |].
      * destruct (decide (ikey itv = k)) as [Hke|Hkne].
        { rewrite Hke. apply lookup_delete_eq. }
        by rewrite lookup_delete_ne.
      * rewrite Hl, length_app in Heq. simpl in Heq. lia.
    + rewrite upsert_room in Hup by (done || lia). injection Hup as <-.
      apply Inv_push; (done || lia).
Qed.

Lemma Get_absent c k now :
  items c !! k = None → Get k now c = Ok (DNil, false, c).
Proof. intros Hk. unfold Get. by rewrite Hk. Qed.

Lemma Get_present c k now h it :
  Inv c → items c !! k = Some h → heap c !! h = Some it →
  Get k now c =
    if negb (IsZero (ttl it)) && Before (ttl it) now then
      Ok (DNil, false,
          mkCache (capacity c) (delete k (items c)) (GoList.Remove h (order c))
                  (heap c) (next c))
    else
      Ok (ivalue it, true,
          mkCache (capacity c) (items c) (h :: GoList.Remove h (order c))
                  (heap c) (next c)).
Proof.
  intros HI Hk Hit.
  pose proof (Inv_lookup c k h HI Hk) as (Hin & it' & Hit' & Hkey).
  assert (it' = it) as -> by congruence.
  unfold Get, item_of. rewrite Hk, Hit. simpl.
  destruct (negb (IsZero (ttl it)) && Before (ttl it) now).
  - rewrite Hkey, (deleteItem_present c k h) by done. reflexivity.
  - unfold GoList.MoveToFront. by rewrite decide_True.
Qed.

Lemma Get_Inv c k now v ok c' :
  Inv c → Get k now c = Ok (v, ok, c') → Inv c'.
Proof.
  intros HI HG. destruct (items c !! k) as [h|] eqn:Hk.
  - pose proof (Inv_lookup c k h HI Hk) as (Hin & it & Hit & Hkey).
    rewrite (Get_present c k now h it) in HG by done.
    destruct (negb (IsZero (ttl it)) && Before (ttl it) now);
      injection HG as <- <- <-.
    + by apply Inv_unlink.
    + pose proof (Inv_front c h it HI Hin) as HF.
      rewrite insert_id in HF by done. apply HF. eauto.
  - rewrite Get_absent in HG by done. by injection HG as <- <- <-.
Qed.

Lemma Remove_Inv c k c' : Inv c → Remove k c = Ok c' → Inv c'.
Proof.
  intros HI HR. unfold Remove in HR. destruct (items c !! k) as [h|] eqn:Hk.
  - rewrite (deleteItem_present c k h) in HR by done. injection HR as <-.
    by apply Inv_unlink.
  - rewrite deleteItem_absent in HR by done. by injection HR as <-.
Qed.

Lemma Clear_Inv c : Inv c → Inv (Clear c).
Proof.
  intros HI. split; simpl.
  - apply NoDup_nil_2.
  - intros k h. rewrite lookup_empty. split; [done|].
    intros [Hin _]. by apply elem_of_nil in Hin.
  - intros h Hin. by apply elem_of_nil in Hin.
  - apply HI.
  - pose proof (inv_cap c HI). lia.
  - intros h Hin. by apply elem_of_nil in Hin.
Qed.

(** After a successful insertion or update the key is at the front. *)
Lemma upsert_post c k v t c' :
  Inv c → upsert k v t c = Ok c' →
  ∃ h l, items c' !! k = Some h ∧ heap c' !! h = Some (mkItem k v t)
    ∧ order c' = h :: l.
Proof.
  intros HI Hup. destruct (items c !! k) as [h|] eqn:Hk.
  - pose proof (Inv_lookup c k h HI Hk) as (Hin & it & Hit & Hkey).
    rewrite (upsert_existing c k v t h it) in Hup by done.
    destruct (go_neq (ivalue it) v); [|done]. injection Hup as <-.
    exists h, (GoList.Remove h (order c)). simpl.
    by rewrite lookup_insert_eq.
  - pose proof (inv_len c HI) as Hle.
    destruct (decide (Z.of_nat (length (order c)) = capacity c)) as [Heq|Hne].
    + destruct (upsert_full c k v t HI Hk Heq)
        as (rest & victim & itv & Hl & Hitv & Hkv & Heq').
      rewrite Heq' in Hup. injection Hup as <-.
      exists (next c), rest. simpl. by rewrite !lookup_insert_eq.
    + rewrite upsert_room in Hup by (done || lia). injection Hup as <-.
      exists (next c), (order c). simpl. by rewrite !lookup_insert_eq.
Qed.

(** A live entry at the front: [Get] returns it and changes nothing. *)
Lemma Get_front c k now h it l :
  Inv c → items c !! k = Some h → heap c !! h = Some it →
  order c = h :: l →
  negb (IsZero (ttl it)) && Before (ttl it) now = false →
  Get k now c = Ok (ivalue it, true, c).
Proof.
  intros HI Hk Hit Hl Hlive.
  rewrite (Get_present c k now h it HI Hk Hit), Hlive.
  pose proof (inv_nodup c HI) as Hnd. rewrite Hl in Hnd |- *.
  apply NoDup_cons in Hnd as [Hn _]. rewrite Remove_cons_eq by done.
  destruct c; simpl in *. by subst.
Qed.

Lemma upsert_capacity c k v t c' :
  Inv c → upsert k v t c = Ok c' → capacity c' = capacity c.
Proof.
  intros HI Hup. destruct (items c !! k) as [h|] eqn:Hk.
  - pose proof (Inv_lookup c k h HI Hk) as (Hin & it & Hit & Hkey).
    rewrite (upsert_existing c k v t h it) in Hup by done.
    destruct (go_neq (ivalue it) v); [|done]. by injection Hup as <-.
  - pose proof (inv_len c HI) as Hle.
    destruct (decide (Z.of_nat (length (order c)) = capacity c)) as [Heq|Hne].
    + destruct (upsert_full c k v t HI Hk Heq)
        as (rest & victim & itv & Hl & Hitv & Hkv & Heq').
      rewrite Heq' in Hup. by injection Hup as <-.
    + rewrite upsert_room in Hup by (done || lia). by injection Hup as <-.
Qed.

Lemma Get_capacity c k now v ok c' :
  Inv c → Get k now c = Ok (v, ok, c') → capacity c' = capacity c.
Proof.
  intros HI HG. destruct (items c !! k) as [h|] eqn:Hk.
  - pose proof (Inv_lookup c k h HI Hk) as (Hin & it & Hit & Hkey).
    rewrite (Get_present c k now h it) in HG by done.
    by destruct (negb (IsZero (ttl it)) && Before (ttl it) now);
      injection HG as <- <- <-.
  - rewrite Get_absent in HG by done. by injection HG as <- <- <-.
Qed.

Lemma Remove_capacity c k c' :
  Inv c → Remove k c = Ok c' → capacity c' = capacity c.
Proof.
  intros HI HR. unfold Remove in HR. destruct (items c !! k) as [h|] eqn:Hk.
  - rewrite (deleteItem_present c k h) in HR by done. by injection HR as <-.
  - rewrite deleteItem_absent in HR by done. by injection HR as <-.
Qed.

End operations.

(** * The sweep of the reaper and the reachable caches *)

Section sweeping.
Implicit Types (c : cache) (k : key) (h : handle) (it : item).

Lemma sweep_loop_spec clk rest :
  ∀ kept c i fuel,
    Inv c → order c = kept ++ rest → (length rest ≤ fuel)%nat →
    ∃ c', sweep_loop fuel clk i (head rest) c = Some (Ok c')
      ∧ order c' = kept ++ survivors (heap c) clk i rest
      ∧ heap c' = heap c ∧ capacity c' = capacity c ∧ next c' = next c
      ∧ Inv c'.
Proof.
  induction rest as [|e rest IH]; intros kept c i fuel HI Hl Hfuel.
  - exists c. simpl. by destruct fuel.
  - destruct fuel as [|fuel]; simpl in Hfuel; [lia|].
    assert (e ∈ order c) as Hin.
    { rewrite Hl. apply elem_of_app. right. apply list_elem_of_here. }
    destruct (Inv_listed c e HI Hin) as (it & Hit & Hk).
    pose proof (inv_nodup c HI) as Hnd. rewrite Hl in Hnd.
    simpl. unfold item_of. rewrite Hit, Hl, (Next_mid kept e rest Hnd).
    destruct (Before (ttl it) (clk i)) eqn:Hb.
    + rewrite (deleteItem_present c _ e HI Hk).
      pose proof (Inv_unlink c _ _ HI Hk) as HI1.
      rewrite Hl, (Remove_mid kept e rest Hnd) in HI1.
      rewrite Hl, (Remove_mid kept e rest Hnd).
      destruct (IH kept _ (S i) fuel HI1 eq_refl ltac:(lia))
        as (c' & Hrun & Hord & Hhp & Hcap & Hnx & HI').
      exists c'. simpl in *. done.
    + destruct (IH (kept ++ [e]) c (S i) fuel HI) as
        (c' & Hrun & Hord & Hhp & Hcap & Hnx & HI').
      { by rewrite <- app_assoc. }
      { lia. }
      exists c'. rewrite <- app_assoc in Hord. done.
Qed.

(** A sweep of an intact cache returns, and keeps exactly the survivors. *)
Lemma sweep_spec clk c :
  Inv c →
  ∃ c', sweep clk c = Some (Ok c')
    ∧ order c' = survivors (heap c) clk 0 (order c)
    ∧ heap c' = heap c ∧ capacity c' = capacity c ∧ next c' = next c
    ∧ Inv c'.
Proof.
  intros HI. unfold sweep, GoList.Front.
  apply (sweep_loop_spec clk (order c) [] c 0%nat); done.
Qed.

Lemma run_op_Inv o c c' : Inv c → run_op o c = Some c' → Inv c'.
Proof.
  intros HI Hrun. destruct o as [k v|k v d now|k now|k| |clk]; simpl in Hrun.
  - destruct (Add k v c) as [c1|] eqn:HA; [|done]. injection Hrun as <-.
    rewrite Add_upsert in HA. by eapply upsert_Inv.
  - destruct (AddWithTTL k v d now c) as [c1|] eqn:HA; [|done].
    injection Hrun as <-. rewrite AddWithTTL_upsert in HA. by eapply upsert_Inv.
  - destruct (Get k now c) as [[[v ok] c1]|] eqn:HG; [|done].
    injection Hrun as <-. by eapply Get_Inv.
  - destruct (Remove k c) as [c1|] eqn:HR; [|done]. injection Hrun as <-.
    by eapply Remove_Inv.
  - injection Hrun as <-. by apply Clear_Inv.
  - destruct (sweep_spec clk c HI) as (c1 & Hs & _ & _ & _ & _ & HI1).
    rewrite Hs in Hrun. simpl in Hrun. by injection Hrun as <-.
Qed.

Lemma NewCache_Some cap c :
  NewCache cap = (Some c, None) ↔
  0 < cap ∧ c = mkCache cap ∅ GoList.Init ∅ 0%nat.
Proof.
  unfold NewCache. destruct (Z.leb_spec cap 0); split.
  - done.
  - intros [? _]. lia.
  - intros [= <-]. split; [lia|done].
  - by intros [_ ->].
Qed.

Lemma runs_Inv c0 c : Inv c0 → runs c0 c → Inv c.
Proof.
  intros HI0. induction 1 as [|o c c' _ IH Hrun]; [done|].
  by eapply run_op_Inv.
Qed.

Lemma reachable_Inv c : reachable c → Inv c.
Proof.
  intros (cap & c0 & Hnew & Hruns).
  apply NewCache_Some in Hnew as [Hcap ->].
  eapply runs_Inv; [|done]. by apply Inv_new.
Qed.

Lemma reachable_step o c c' : reachable c → run_op o c = Some c' → reachable c'.
Proof.
  intros (cap & c0 & Hnew & Hruns) Hrun. exists cap, c0. split; [done|].
  by eapply runs_step.
Qed.

Lemma runs_run_ops os : ∀ c0 c c', runs c0 c → run_ops os c = Some c' → runs c0 c'.
Proof.
  induction os as [|o os IH]; simpl; intros c0 c c' Hruns Hos.
  - by injection Hos as <-.
  - destruct (run_op o c) as [c1|] eqn:Ho; [|done]. simpl in Hos.
    eapply IH; [|done]. by eapply runs_step.
Qed.

Lemma reachable_run_ops cap os c0 c :
  NewCache cap = (Some c0, None) → run_ops os c0 = Some c → reachable c.
Proof.
  intros Hnew Hos. exists cap, c0. split; [done|].
  eapply runs_run_ops; [apply runs_refl|done].
Qed.


Lemma run_op_capacity o c c' :
  Inv c → run_op o c = Some c' → capacity c' = capacity c.
Proof.
  intros HI Hrun. destruct o as [k v|k v d now|k now|k| |clk]; simpl in Hrun.
  - destruct (Add k v c) as [c1|] eqn:HA; [|done]. injection Hrun as <-.
    rewrite Add_upsert in HA. revert HA. apply upsert_capacity, HI.
  - destruct (AddWithTTL k v d now c) as [c1|] eqn:HA; [|done].
    injection Hrun as <-. rewrite AddWithTTL_upsert in HA.
    revert HA. apply upsert_capacity, HI.
  - destruct (Get k now c) as [[[v ok] c1]|] eqn:HG; [|done].
    injection Hrun as <-. simpl. revert HG. apply Get_capacity, HI.
  - destruct (Remove k c) as [c1|] eqn:HR; [|done]. injection Hrun as <-.
    revert HR. apply Remove_capacity, HI.
  - by injection Hrun as <-.
  - destruct (sweep_spec clk c HI) as (c1 & Hs & _ & _ & Hcap & _).
    rewrite Hs in Hrun. simpl in Hrun. by injection Hrun as <-.
Qed.

Lemma runs_capacity c0 c : Inv c0 → runs c0 c → capacity c = capacity c0.
Proof.
  intros HI0. induction 1 as [|o c c' Hruns IH Hrun]; [done|].
  rewrite <- IH. eapply run_op_capacity; [|done]. by eapply runs_Inv.
Qed.

End sweeping.

(** * The index and the list move in lock-step *)

Section lockstep_facts.
Implicit Types (c : cache) (k : key) (h : handle) (it : item).

Lemma size_index (f : handle → key) (l : list handle) :
  ∀ m : gmap key handle,
    NoDup l → (∀ k h, m !! k = Some h ↔ h ∈ l ∧ f h = k) →
    size m = length l.
Proof.
  induction l as [|x l IH]; intros m Hnd Hm.
  - assert (m = ∅) as ->; [|apply map_size_empty].
    apply map_empty. intros k. destruct (m !! k) as [h|] eqn:Hk; [|done].
    apply Hm in Hk as [Hin _]. by apply elem_of_nil in Hin.
  - apply NoDup_cons in Hnd as [Hx Hnd].
    assert (m !! f x = Some x) as Hfx.
    { apply Hm. split; [apply list_elem_of_here|done]. }
    rewrite <- (insert_delete_id m (f x) x Hfx).
    rewrite map_size_insert_None by apply lookup_delete_eq.
    simpl. f_equal. apply IH; [done|].
    intros k h. destruct (decide (k = f x)) as [->|Hne].
    + rewrite lookup_delete_eq. split; [done|]. intros [Hin Hf].
      assert (m !! f x = Some h) as Hh.
      { apply Hm. split; [by apply list_elem_of_further|done]. }
      congruence.
    + rewrite lookup_delete_ne by done. rewrite Hm, elem_of_cons.
      split; [|tauto]. intros [[->|Hin] Hf]; [congruence|done].
Qed.

Lemma key_at_spec c h k :
  Inv c → h ∈ order c →
  (∃ it, heap c !! h = Some it ∧ ikey it = k) ↔ key_at (heap c) h = k.
Proof.
  intros HI Hin. destruct (inv_heap c HI h Hin) as [it Hit].
  unfold key_at. rewrite Hit. split.
  - by intros (it' & [= <-] & <-).
  - intros <-. eauto.
Qed.

Lemma Inv_index c k h :
  Inv c → items c !! k = Some h ↔ h ∈ order c ∧ key_at (heap c) h = k.
Proof.
  intros HI. rewrite (inv_items c HI). split.
  - intros [Hin Hit]. split; [done|]. by apply (key_at_spec c h k HI Hin).
  - intros [Hin Hk]. split; [done|]. by apply (key_at_spec c h k HI Hin).
Qed.

Lemma size_items c : Inv c → size (items c) = length (order c).
Proof.
  intros HI. apply (size_index (key_at (heap c))); [apply HI|].
  intros k h. by apply Inv_index.
Qed.

Lemma Inv_lockstep c : Inv c → lockstep c.
Proof.
  intros HI. unfold lockstep, GoList.Len. rewrite (size_items c HI).
  split; [apply HI|]. split; [|split; [|split; [|split; [done|apply HI]]]].
  - apply NoDup_fmap_2_strong; [|apply HI].
    intros h1 h2 Hin1 Hin2 Hk.
    assert (items c !! key_at (heap c) h1 = Some h1) as H1
      by (by apply Inv_index).
    assert (items c !! key_at (heap c) h1 = Some h2) as H2
      by (by apply Inv_index).
    congruence.
  - intros h. split.
    + intros Hin. exists (key_at (heap c) h). by apply Inv_index.
    + intros [k Hk]. by apply (Inv_lookup c k h HI).
  - intros k h Hk. by apply (Inv_lookup c k h HI).
Qed.

End lockstep_facts.

(** * Properties of the cache *)

Lemma reachable_cache3 : reachable cache3.
Proof. apply (reachable_run_ops 3 [] cache3); reflexivity. Qed.

Lemma reachable_abc : reachable cache_abc.
Proof.
  apply (reachable_run_ops 3 ops_abc_getA cache3); [reflexivity|].
  vm_compute. reflexivity.
Qed.

Lemma reachable_abcd : reachable cache_abcd.
Proof.
  apply (reachable_step (OpAdd kD (DInt 4)) cache_abc); [apply reachable_abc|].
  vm_compute. reflexivity.
Qed.

Lemma reachable_mixed : reachable cache_mixed.
Proof.
  apply (reachable_run_ops 3 ops_mixed cache3); [reflexivity|].
  vm_compute. reflexivity.
Qed.

Lemma reachable_ttl : reachable cache_ttl.
Proof.
  apply (reachable_step (OpAddWithTTL kA (DInt 7) 0 100) cache3);
    [apply reachable_cache3|].
  vm_compute. reflexivity.
Qed.

Lemma reachable_slice : reachable cache_slice.
Proof.
  apply (reachable_step (OpAdd (KInt 1) (DSlice [1])) cache3);
    [apply reachable_cache3|].
  vm_compute. reflexivity.
Qed.

(** C2: after every completed public operation ([Add], [AddWithTTL], [Get],
    [Remove], [Clear]) started in a state reachable from [NewCache], the
    recency list and the key index hold exactly the same nodes, each key at
    most once, the index sending a key to the node that holds it, and
    [len(order) = len(index) <= capacity]. *)
Theorem lockstep_after_public_op c o c' :
  reachable c → is_public o = true → run_op o c = Some c' → lockstep c'.
Proof.
  intros Hr _ Hrun. apply Inv_lockstep.
  eapply run_op_Inv; [by apply reachable_Inv|done].
Qed.

Lemma lockstep_after_public_op_witness :
  run_op (OpAdd kD (DInt 4)) cache_abc = Some cache_abcd ∧ lockstep cache_abcd.
Proof.
  assert (run_op (OpAdd kD (DInt 4)) cache_abc = Some cache_abcd) as Hrun
    by (vm_compute; reflexivity).
  split; [exact Hrun|].
  apply (lockstep_after_public_op cache_abc (OpAdd kD (DInt 4)) cache_abcd).
  - apply reachable_abc.
  - reflexivity.
  - exact Hrun.
Defined.

(** C6: [NewCache(c)] fails with the error "invalid capacity" and creates no
    cache exactly when [c <= 0]; for [c > 0] it returns a cache with an empty
    index and an empty list whose [Cap()] is [c], and [Cap()] stays [c] in
    every state the cache goes through. *)
Theorem NewCache_capacity_rule cap :
  (NewCache cap = (None, Some (errors_New "invalid capacity")) ↔ cap ≤ 0)
  ∧ (0 < cap →
     ∃ c, NewCache cap = (Some c, None)
       ∧ items c = ∅ ∧ order c = [] ∧ Cap c = cap)
  ∧ (∀ c0 c, NewCache cap = (Some c0, None) → runs c0 c → Cap c = cap).
Proof.
  split; [|split].
  - unfold NewCache. destruct (Z.leb_spec cap 0); split; (done || lia).
  - intros Hcap. exists (mkCache cap ∅ GoList.Init ∅ 0%nat).
    split; [|done]. by apply NewCache_Some.
  - intros c0 c Hnew Hruns. apply NewCache_Some in Hnew as [Hcap ->].
    unfold Cap. rewrite (runs_capacity _ c (Inv_new cap Hcap) Hruns). done.
Qed.

Lemma NewCache_capacity_rule_witness :
  NewCache 3 = (Some cache3, None) ∧ Cap cache_abcd = 3.
Proof.
  split; [reflexivity|].
  apply (proj2 (proj2 (NewCache_capacity_rule 3)) cache3 cache_abcd).
  - reflexivity.
  - apply (runs_run_ops (ops_abc_getA ++ [OpAdd kD (DInt 4)]) cache3 cache3).
    + apply runs_refl.
    + vm_compute. reflexivity.
Defined.

(** C9: when [k] is present, [Remove(k)] deletes its node from the index and
    from the list, and a [Get(k)] that follows returns [(nil, false)]; when
    [k] is absent, [Remove(k)] returns without error and leaves the whole
    cache as it was. *)
Theorem Remove_present_absent c k now :
  reachable c →
  (∀ h, items c !! k = Some h →
     ∃ c', Remove k c = Ok c'
       ∧ items c' = delete k (items c)
       ∧ order c' = GoList.Remove h (order c)
       ∧ (h ∉ order c') ∧ items c' !! k = None
       ∧ heap c' = heap c ∧ capacity c' = capacity c
       ∧ Get k now c' = Ok (DNil, false, c'))
  ∧ (items c !! k = None → Remove k c = Ok c).
Proof.
  intros HI%reachable_Inv. split.
  - intros h Hk. eexists. split; [by apply deleteItem_present|]. simpl.
    do 2 (split; [done|]). split.
    { apply Remove_not_elem_of. }
    split; [apply lookup_delete_eq|]. do 2 (split; [done|]).
    apply Get_absent. simpl. apply lookup_delete_eq.
  - apply deleteItem_absent.
Qed.

Lemma Remove_present_absent_witness :
  Remove kB cache_abc ≠ Ok cache_abc ∧ Remove kD cache_abc = Ok cache_abc.
Proof.
  destruct (Remove_present_absent cache_abc kB 5 reachable_abc) as [Hp _].
  destruct (Remove_present_absent cache_abc kD 5 reachable_abc) as [_ Ha].
  split.
  - destruct (Hp 1%nat) as (c' & HR & Hit & _); [vm_compute; reflexivity|].
    rewrite HR. intros [= ->]. revert Hit. vm_compute. discriminate.
  - apply Ha. vm_compute. reflexivity.
Defined.

(** C3, as the code has it: [Get] returns [(nil, false)] for an absent key;
    for a present key whose expiry is set and strictly before the current
    time it unlinks the node, deletes the key and returns [(nil, false)];
    for a present key with no expiry, or an expiry at or after the current
    time, it moves the node to the front and returns [(value, true)]. An
    entry just added with a TTL is returned as long as the current time has
    not passed its expiry. *)
Theorem Get_cases c k now :
  reachable c →
  (items c !! k = None → Get k now c = Ok (DNil, false, c))
  ∧ (∀ h it, items c !! k = Some h → heap c !! h = Some it →
       (ttl it ≠ zeroTime → ttl it < now →
        Get k now c =
          Ok (DNil, false,
              mkCache (capacity c) (delete k (items c))
                      (GoList.Remove h (order c)) (heap c) (next c)))
       ∧ (ttl it = zeroTime ∨ now ≤ ttl it →
          Get k now c =
            Ok (ivalue it, true,
                mkCache (capacity c) (items c)
                        (h :: GoList.Remove h (order c)) (heap c) (next c))))
  ∧ (∀ v d now0 c1, AddWithTTL k v d now0 c = Ok c1 → now ≤ now0 + d →
       Get k now c1 = Ok (v, true, c1)).
Proof.
  intros HI%reachable_Inv. split; [apply Get_absent|]. split.
  - intros h it Hk Hit. rewrite (Get_present c k now h it HI Hk Hit).
    unfold IsZero, Before, zeroTime. split.
    + intros Hset Hlt.
      destruct (Z.eqb_spec (ttl it) 0); [done|].
      destruct (Z.ltb_spec (ttl it) now); [done|lia].
    + intros Hlive.
      destruct (Z.eqb_spec (ttl it) 0); [done|].
      destruct (Z.ltb_spec (ttl it) now); [lia|done].
  - intros v d now0 c1 HA Hle. rewrite AddWithTTL_upsert in HA.
    destruct (upsert_post c k v _ c1 HI HA) as (h & l & Hk & Hit & Hl).
    apply (Get_front c1 k now h _ l (upsert_Inv _ _ _ _ _ HI HA) Hk Hit Hl).
    simpl. unfold IsZero, Before, TimeAdd.
    destruct (Z.ltb_spec (now0 + d) now); [lia|]. apply andb_false_r.
Qed.

Lemma Get_cases_witness :
  Get kA 99 cache_ttl = Ok (DInt 7, true, cache_ttl)
  ∧ ∃ c', Get kA 101 cache_ttl = Ok (DNil, false, c') ∧ order c' = [].
Proof.
  destruct (Get_cases cache_ttl kA 99 reachable_ttl) as (_ & Hlive & _).
  destruct (Get_cases cache_ttl kA 101 reachable_ttl) as (_ & Hdead & _).
  assert (items cache_ttl !! kA = Some 0%nat) as Hk
    by (vm_compute; reflexivity).
  assert (heap cache_ttl !! 0%nat = Some (mkItem kA (DInt 7) 100)) as Hit
    by (vm_compute; reflexivity).
  split.
  - rewrite (proj2 (Hlive 0%nat _ Hk Hit)); [vm_compute; reflexivity|].
    right. simpl. lia.
  - eexists. split.
    + apply (proj1 (Hdead 0%nat _ Hk Hit)); [simpl; unfold zeroTime; lia|simpl; lia].
    + vm_compute. reflexivity.
Defined.

(** C3 as stated fails when the expiry equals the current time: the expiry
    of [A] in [cache_ttl] is set (100) and is not after the current time
    100, and [Get] returns the value with [true] and keeps the node. *)
Lemma Get_expiry_now_counterexample :
  items cache_ttl !! kA = Some 0%nat
  ∧ heap cache_ttl !! 0%nat = Some (mkItem kA (DInt 7) 100)
  ∧ IsZero 100 = false ∧ After 100 100 = false
  ∧ Get kA 100 cache_ttl = Ok (DInt 7, true, cache_ttl).
Proof. repeat split; vm_compute; reflexivity. Qed.

(** The draft's [Get] agrees with [Get] on the entries the draft can hold
    (no expiry), and would block on an entry whose expiry is still ahead. *)
Lemma Draft_Get_no_expiry c k now h it :
  items c !! k = Some h → heap c !! h = Some it →
  ttl it = zeroTime → zeroTime ≤ now →
  Draft.Get k now c = Draft.Returns (Get k now c).
Proof.
  intros Hk Hit Hz Hnow. unfold Draft.Get, Get, item_of. rewrite Hk, Hit. simpl.
  rewrite Hz. unfold After, IsZero, zeroTime in *.
  destruct (Z.ltb_spec now 0); [lia|]. reflexivity.
Qed.

Lemma Draft_Get_expiry_ahead c k now h it :
  items c !! k = Some h → heap c !! h = Some it → now < ttl it →
  Draft.Get k now c = Draft.Blocks.
Proof.
  intros Hk Hit Hlt. unfold Draft.Get, item_of. rewrite Hk, Hit. simpl.
  unfold After. destruct (Z.ltb_spec now (ttl it)); [done|lia].
Qed.

(** C4: on every reachable cache a [Get(k)] right after [Add(k, v)] returns
    [(v, true)]; on an existing key [Add] leaves the index as it was, clears
    the expiry and moves the node to the front. [Add] returns unless the
    stored and the new value are both slices. *)
Theorem Add_then_Get c k v now :
  reachable c →
  (∀ c', Add k v c = Ok c' → Get k now c' = Ok (v, true, c'))
  ∧ (∀ h c', items c !! k = Some h → Add k v c = Ok c' →
       items c' = items c
       ∧ order c' = h :: GoList.Remove h (order c)
       ∧ heap c' !! h = Some (mkItem k v zeroTime))
  ∧ (∀ msg, Add k v c = Panic msg →
       ∃ h it xs ys, items c !! k = Some h ∧ heap c !! h = Some it
         ∧ ivalue it = DSlice xs ∧ v = DSlice ys).
Proof.
  intros HI%reachable_Inv. rewrite Add_upsert. split; [|split].
  - intros c' HA.
    destruct (upsert_post c k v _ c' HI HA) as (h & l & Hk & Hit & Hl).
    by apply (Get_front c' k now h _ l (upsert_Inv _ _ _ _ _ HI HA) Hk Hit Hl).
  - intros h c' Hk HA.
    pose proof (Inv_lookup c k h HI Hk) as (Hin & it & Hit & Hkey).
    rewrite (upsert_existing c k v _ h it HI Hk Hit) in HA.
    destruct (go_neq (ivalue it) v); [|done]. injection HA as <-. simpl.
    by rewrite lookup_insert_eq.
  - intros msg HA. destruct (items c !! k) as [h|] eqn:Hk.
    + pose proof (Inv_lookup c k h HI Hk) as (Hin & it & Hit & Hkey).
      rewrite (upsert_existing c k v _ h it HI Hk Hit) in HA.
      destruct (go_neq (ivalue it) v) as [ne|msg'] eqn:Hne; [done|].
      apply go_neq_Panic in Hne as [(xs & ys & Hxs & Hys) _].
      exists h, it, xs, ys. done.
    + pose proof (inv_len c HI) as Hle.
      destruct (decide (Z.of_nat (length (order c)) = capacity c)) as [Heq|Hne].
      * destruct (upsert_full c k v zeroTime HI Hk Heq)
          as (rest & victim & itv & Hl & Hitv & Hkv & Heq').
        by rewrite Heq' in HA.
      * by rewrite upsert_room in HA by (done || lia).
Qed.

Lemma Add_then_Get_witness :
  ∃ c', Add kB (DInt 9) cache_abc = Ok c'
    ∧ Get kB 5 c' = Ok (DInt 9, true, c').
Proof.
  eexists. split; [vm_compute; reflexivity|].
  apply (proj1 (Add_then_Get cache_abc kB (DInt 9) 5 reachable_abc)).
  vm_compute. reflexivity.
Defined.

(** C5: inserting a new key into a cache that is at capacity removes the
    node at the back of the list and no other; inserting a new key below
    capacity removes nothing; updating an existing key removes nothing.
    With capacity 3, after [Add(A)], [Add(B)], [Add(C)], [Get(A)], [Add(D)]
    the evicted key is [B]: [Get(B)] returns [(nil, false)] and [Get(A)],
    [Get(C)], [Get(D)] return their values with [true]. *)
Theorem eviction_rule c k v f :
  reachable c → inserts k v f →
  (items c !! k = None → GoList.Len (order c) = capacity c →
     ∃ rest victim itv c',
       order c = rest ++ [victim] ∧ heap c !! victim = Some itv
       ∧ f c = Ok c' ∧ order c' = next c :: rest
       ∧ items c' = <[k := next c]> (delete (ikey itv) (items c)))
  ∧ (items c !! k = None → GoList.Len (order c) < capacity c →
       ∃ c', f c = Ok c' ∧ order c' = next c :: order c
         ∧ items c' = <[k := next c]> (items c))
  ∧ (∀ h c', items c !! k = Some h → f c = Ok c' →
       items c' = items c
       ∧ (∀ x, x ∈ order c' ↔ x ∈ order c)
       ∧ length (order c') = length (order c))
  ∧ (run_ops (ops_abc_getA ++ [OpAdd kD (DInt 4)]) cache3 = Some cache_abcd
     ∧ items cache_abc !! kB = Some 1%nat
     ∧ GoList.Back (order cache_abc) = Some 1%nat
     ∧ ∀ now,
         Get kB now cache_abcd = Ok (DNil, false, cache_abcd)
         ∧ (∃ c1, Get kA now cache_abcd = Ok (DInt 1, true, c1))
         ∧ (∃ c1, Get kC now cache_abcd = Ok (DInt 3, true, c1))
         ∧ (∃ c1, Get kD now cache_abcd = Ok (DInt 4, true, c1))).
Proof.
  intros HI%reachable_Inv Hf.
  assert (∃ t, f = upsert k v t) as [t ->].
  { destruct Hf as [->|(d & now & ->)]; eauto. }
  unfold GoList.Len. split; [|split; [|split]].
  - intros Hk Hlen.
    destruct (upsert_full c k v t HI Hk Hlen)
      as (rest & victim & itv & Hl & Hitv & Hkv & Heq).
    exists rest, victim, itv. eexists. by rewrite Heq.
  - intros Hk Hlen. eexists. by rewrite upsert_room.
  - intros h c' Hk Hup.
    pose proof (Inv_lookup c k h HI Hk) as (Hin & it & Hit & Hkey).
    rewrite (upsert_existing c k v t h it HI Hk Hit) in Hup.
    destruct (go_neq (ivalue it) v); [|done]. injection Hup as <-. simpl.
    split; [done|]. split.
    + intros x. by apply elem_of_front.
    + apply Remove_length; [apply HI|done].
  - split; [vm_compute; reflexivity|]. do 2 (split; [vm_compute; reflexivity|]).
    intros now. pose proof (reachable_Inv _ reachable_abcd) as HI4.
    split; [apply Get_absent; vm_compute; reflexivity|].
    split; [|split]; eexists.
    + by rewrite (Get_present cache_abcd kA now 0%nat (mkItem kA (DInt 1) 0))
        by (done || (vm_compute; reflexivity)).
    + by rewrite (Get_present cache_abcd kC now 2%nat (mkItem kC (DInt 3) 0))
        by (done || (vm_compute; reflexivity)).
    + by rewrite (Get_present cache_abcd kD now 3%nat (mkItem kD (DInt 4) 0))
        by (done || (vm_compute; reflexivity)).
Qed.

Lemma eviction_rule_witness :
  ∃ c', Add kD (DInt 4) cache_abc = Ok c' ∧ order c' = [3; 0; 2]%nat.
Proof.
  destruct (eviction_rule cache_abc kD (DInt 4) (Add kD (DInt 4)) reachable_abc)
    as (Hfull & _).
  { left. reflexivity. }
  destruct Hfull as (rest & victim & itv & c' & Hl & _ & HA & Ho & _).
  { vm_compute. reflexivity. }
  { vm_compute. reflexivity. }
  exists c'. split; [exact HA|]. rewrite Ho.
  change (order cache_abc) with ([0; 2] ++ [1])%nat in Hl.
  apply app_inj_tail in Hl as [<- _]. reflexivity.
Defined.

(** C10: [Get] returns on every reachable cache; it writes no item (so no
    value and no expiry changes) and keeps the capacity. The cache is left
    as it was when the key is absent, has the queried node moved to the
    front when the entry is returned, and loses the queried node, whose
    expiry was set and before the current time, otherwise. *)
Theorem Get_frame c k now :
  reachable c →
  ∃ v ok c', Get k now c = Ok (v, ok, c')
    ∧ heap c' = heap c ∧ capacity c' = capacity c
    ∧ ((items c !! k = None ∧ ok = false ∧ c' = c)
       ∨ (∃ h it, items c !! k = Some h ∧ heap c !! h = Some it
            ∧ ok = true ∧ v = ivalue it ∧ items c' = items c
            ∧ order c' = h :: GoList.Remove h (order c))
       ∨ (∃ h it, items c !! k = Some h ∧ heap c !! h = Some it
            ∧ ok = false ∧ ttl it ≠ zeroTime ∧ ttl it < now
            ∧ items c' = delete k (items c)
            ∧ order c' = GoList.Remove h (order c))).
Proof.
  intros HI%reachable_Inv. destruct (items c !! k) as [h|] eqn:Hk.
  - pose proof (Inv_lookup c k h HI Hk) as (Hin & it & Hit & Hkey).
    rewrite (Get_present c k now h it HI Hk Hit).
    unfold IsZero, Before, zeroTime.
    destruct (Z.eqb_spec (ttl it) 0) as [Hz|Hz]; simpl.
    { do 3 eexists. split; [done|]. do 2 (split; [done|]).
      right. left. exists h, it. done. }
    destruct (Z.ltb_spec (ttl it) now) as [Hlt|Hge].
    + do 3 eexists. split; [done|]. do 2 (split; [done|]).
      right. right. exists h, it. done.
    + do 3 eexists. split; [done|]. do 2 (split; [done|]).
      right. left. exists h, it. done.
  - rewrite Get_absent by done. do 3 eexists. split; [done|].
    do 2 (split; [done|]). by left.
Qed.

Lemma Get_frame_witness :
  ∃ v ok c', Get kB 200 cache_mixed = Ok (v, ok, c')
    ∧ heap c' = heap cache_mixed ∧ capacity c' = 3.
Proof.
  destruct (Get_frame cache_mixed kB 200) as (v & ok & c' & HG & Hh & Hc & _).
  { apply (reachable_run_ops 3 ops_mixed cache3); [reflexivity|].
    vm_compute. reflexivity. }
  exists v, ok, c'. split; [exact HG|]. split; [exact Hh|]. exact Hc.
Defined.

(** * The sweep *)

Section survivors_facts.
Variables (hp : gmap handle item) (clk : nat → Time).

Lemma survivors_sub l : ∀ i h, h ∈ survivors hp clk i l → h ∈ l.
Proof.
  induction l as [|x l IH]; simpl; intros i h Hin; [done|].
  destruct (hp !! x) as [it|]; [destruct (Before (ttl it) (clk i))|].
  - apply list_elem_of_further. by eapply IH.
  - apply elem_of_cons in Hin as [->|Hin]; [apply list_elem_of_here|].
    apply list_elem_of_further. by eapply IH.
  - apply elem_of_cons in Hin as [->|Hin]; [apply list_elem_of_here|].
    apply list_elem_of_further. by eapply IH.
Qed.

(** The element visited in iteration [i + j] stays exactly when its expiry
    is not before the reading of the clock in that iteration. *)
Lemma survivors_lookup l :
  NoDup l → ∀ i j h it,
    l !! j = Some h → hp !! h = Some it →
    h ∈ survivors hp clk i l ↔ Before (ttl it) (clk (i + j)%nat) = false.
Proof.
  induction l as [|x l IH]; intros Hnd i j h it Hj Hit; [done|].
  apply NoDup_cons in Hnd as [Hx Hnd]. destruct j as [|j]; simpl in Hj.
  - injection Hj as ->. simpl. rewrite Hit, Nat.add_0_r.
    destruct (Before (ttl it) (clk i)).
    + split; [|done]. intros Hin%survivors_sub. done.
    + split; [done|]. intros _. apply list_elem_of_here.
  - assert (h ∈ l) as Hin by (by eapply list_elem_of_lookup_2).
    assert (h ≠ x) as Hne by (by intros ->).
    rewrite <- Nat.add_succ_comm, <- (IH Hnd (S i) j h it Hj Hit). simpl.
    destruct (hp !! x) as [itx|]; [destruct (Before (ttl itx) (clk i))|];
      rewrite ?elem_of_cons; tauto.
Qed.

End survivors_facts.

(** C1, as the code has it: a sweep of a reachable cache returns; it writes
    no item and adds no node; a node whose expiry is set and strictly before
    the clock reading of its iteration is removed from the list and from the
    index, and a node whose expiry is set and at or after that reading stays
    in both. *)
Theorem sweep_expired c clk :
  reachable c →
  ∃ c', sweep clk c = Some (Ok c')
    ∧ heap c' = heap c ∧ capacity c' = capacity c
    ∧ (∀ h, h ∈ order c' → h ∈ order c)
    ∧ ∀ i h it, order c !! i = Some h → heap c !! h = Some it →
        ttl it ≠ zeroTime →
        (ttl it < clk i → (h ∉ order c') ∧ items c' !! ikey it = None)
        ∧ (clk i ≤ ttl it → h ∈ order c' ∧ items c' !! ikey it = Some h).
Proof.
  intros HI%reachable_Inv.
  destruct (sweep_spec clk c HI) as (c' & Hs & Ho & Hhp & Hcap & _ & HI').
  exists c'. do 3 (split; [done|]). split.
  { intros h. rewrite Ho. apply survivors_sub. }
  intros i h it Hi Hit _.
  pose proof (survivors_lookup (heap c) clk (order c) (inv_nodup c HI)
                0%nat i h it Hi Hit) as Hsurv.
  rewrite <- Ho in Hsurv. simpl in Hsurv. unfold Before in Hsurv.
  assert (h ∈ order c) as Hin by (by eapply list_elem_of_lookup_2).
  split.
  - intros Hlt. assert (h ∉ order c') as Hout.
    { rewrite Hsurv. destruct (Z.ltb_spec (ttl it) (clk i)); [done|lia]. }
    split; [done|].
    destruct (items c' !! ikey it) as [h'|] eqn:Hk'; [|done].
    apply (Inv_lookup c' _ _ HI') in Hk' as (Hin' & it' & Hit' & Hkey').
    rewrite Hhp in Hit'.
    assert (h' ∈ order c) as Hin'c.
    { rewrite Ho in Hin'. by eapply survivors_sub. }
    assert (items c !! ikey it = Some h) by (apply (inv_items c HI); eauto).
    assert (items c !! ikey it = Some h') by (apply (inv_items c HI); eauto).
    congruence.
  - intros Hge. assert (h ∈ order c') as Hin'.
    { rewrite Hsurv. destruct (Z.ltb_spec (ttl it) (clk i)); [lia|done]. }
    split; [done|]. apply (inv_items c' HI'). split; [done|].
    exists it. by rewrite Hhp.
Qed.

Lemma sweep_expired_witness :
  ∃ c', sweep (λ _, 101) cache_mixed = Some (Ok c')
    ∧ (1%nat ∉ order c') ∧ items c' !! kB = None.
Proof.
  destruct (sweep_expired cache_mixed (λ _, 101))
    as (c' & Hs & _ & _ & _ & Hall).
  { apply (reachable_run_ops 3 ops_mixed cache3); [reflexivity|].
    vm_compute. reflexivity. }
  exists c'. split; [exact Hs|].
  apply (Hall 0%nat 1%nat (mkItem kB (DInt 2) 100)).
  - vm_compute. reflexivity.
  - vm_compute. reflexivity.
  - simpl. unfold zeroTime. lia.
  - simpl. lia.
Defined.

(** C1 as stated fails on [cache_mixed], where [A] was added with [Add] and
    [B] expires at 100, under a sweep whose clock reads 100: the sweep
    removes [A], which has no expiry, and keeps [B], whose expiry is set and
    not after the current time. *)
Lemma sweep_counterexample :
  run_ops ops_mixed cache3 = Some cache_mixed
  ∧ heap cache_mixed !! 0%nat = Some (mkItem kA (DInt 1) zeroTime)
  ∧ heap cache_mixed !! 1%nat = Some (mkItem kB (DInt 2) 100)
  ∧ order cache_mixed = [1; 0]%nat
  ∧ sweep (λ _, 100) cache_mixed = Some (Ok cache_swept)
  ∧ order cache_swept = [1%nat]
  ∧ items cache_swept !! kA = None
  ∧ items cache_swept !! kB = Some 1%nat.
Proof. repeat split; vm_compute; reflexivity. Qed.

(** The sweep tests [ttl.Before(time.Now())] without the [IsZero] guard that
    [Get] has: a node with no expiry goes as soon as the clock is past the
    zero instant. *)
Lemma sweep_drops_permanent c clk i h it :
  reachable c → order c !! i = Some h → heap c !! h = Some it →
  ttl it = zeroTime → zeroTime < clk i →
  ∃ c', sweep clk c = Some (Ok c') ∧ h ∉ order c'.
Proof.
  intros HI%reachable_Inv Hi Hit Hz Hclk.
  destruct (sweep_spec clk c HI) as (c' & Hs & Ho & _).
  exists c'. split; [done|]. rewrite Ho.
  rewrite (survivors_lookup (heap c) clk (order c) (inv_nodup c HI)
             0%nat i h it Hi Hit).
  simpl. unfold Before. rewrite Hz.
  destruct (Z.ltb_spec zeroTime (clk i)); [done|lia].
Qed.

(** * Panics *)

(** C7 fails on the update path of [Add] and [AddWithTTL]: the stored value
    and the new one are compared with [!=], and two slices make that
    comparison panic. *)
Theorem Add_slice_over_slice_panics :
  run_ops [OpAdd (KInt 1) (DSlice [1])] cache3 = Some cache_slice
  ∧ Add (KInt 1) (DSlice [2]) cache_slice
    = Panic "runtime error: comparing uncomparable type []int"
  ∧ AddWithTTL (KInt 1) (DSlice [2]) 10 5 cache_slice
    = Panic "runtime error: comparing uncomparable type []int".
Proof. repeat split; vm_compute; reflexivity. Qed.

(** Everywhere else the operations return: on a reachable cache [Get],
    [Remove], [Clear] and the sweep always return, and [Add] and
    [AddWithTTL] return unless both the stored and the new value are
    slices. *)
Lemma operations_return c k v d now clk :
  reachable c →
  (∃ r, Get k now c = Ok r)
  ∧ (∃ c', Remove k c = Ok c')
  ∧ (∃ c', sweep clk c = Some (Ok c'))
  ∧ ((∀ xs, v ≠ DSlice xs) →
     (∃ c', Add k v c = Ok c') ∧ (∃ c', AddWithTTL k v d now c = Ok c')).
Proof.
  intros Hr. pose proof (reachable_Inv c Hr) as HI. split; [|split; [|split]].
  - destruct (items c !! k) as [h|] eqn:Hk.
    + pose proof (Inv_lookup c k h HI Hk) as (Hin & it & Hit & Hkey).
      rewrite (Get_present c k now h it HI Hk Hit).
      destruct (negb (IsZero (ttl it)) && Before (ttl it) now); eauto.
    + rewrite Get_absent by done. eauto.
  - unfold Remove. destruct (items c !! k) as [h|] eqn:Hk.
    + rewrite (deleteItem_present c k h HI Hk). eauto.
    + rewrite deleteItem_absent by done. eauto.
  - destruct (sweep_spec clk c HI) as (c' & Hs & _). eauto.
  - intros Hv. rewrite Add_upsert, AddWithTTL_upsert.
    assert (∀ t, ∃ c', upsert k v t c = Ok c') as Hup; [|by split].
    intros t. destruct (items c !! k) as [h|] eqn:Hk.
    + pose proof (Inv_lookup c k h HI Hk) as (Hin & it & Hit & Hkey).
      rewrite (upsert_existing c k v t h it HI Hk Hit).
      destruct (go_neq (ivalue it) v) as [ne|msg] eqn:Hne; [eauto|].
      apply go_neq_Panic in Hne as [(xs & ys & _ & Hys) _]. by destruct (Hv ys).
    + pose proof (inv_len c HI) as Hle.
      destruct (decide (Z.of_nat (length (order c)) = capacity c)) as [Heq|Hne].
      * destruct (upsert_full c k v t HI Hk Heq)
          as (rest & victim & itv & Hl & Hitv & Hkv & Heq').
        rewrite Heq'. eauto.
      * rewrite upsert_room by (done || lia). eauto.
Qed.

(** * Stopping the reaper *)

(** Once the goroutine has returned nothing receives from [done]: the
    reaper stays stopped, no sweep runs, no pending call of
    [StopTTLRemoval] returns, and callers only accumulate on the send. *)
Lemma stopped_is_terminal es :
  ∀ s s', Reaper.reaper s = Reaper.Stopped → Reaper.exec es s = Some s' →
    Reaper.reaper s' = Reaper.Stopped
    ∧ Reaper.stops_returned s' = Reaper.stops_returned s
    ∧ Reaper.ticker_armed s' = Reaper.ticker_armed s
    ∧ (Reaper.blocked_senders s ≤ Reaper.blocked_senders s')%nat
    ∧ (Reaper.Tick ∉ es) ∧ (Reaper.Handshake ∉ es).
Proof.
  induction es as [|e es IH]; simpl; intros s s' Hst Hex.
  - injection Hex as <-. repeat split; (done || lia || apply not_elem_of_nil).
  - destruct e; unfold Reaper.step in Hex; rewrite Hst in Hex;
      simpl in Hex; try done.
    apply IH in Hex as (H1 & H2 & H3 & H4 & H5 & H6); [|done]. simpl in *.
    repeat split; try (done || lia).
    + intros [?|?]%elem_of_cons; done.
    + intros [?|?]%elem_of_cons; done.
Qed.

(** C8, as the code has it: a call of [StopTTLRemoval] that the running
    reaper receives stops the reaper for good and disarms its ticker, and
    that call returns; the stopped reaper never runs again, and a call made
    after that stays blocked on the send. *)
Theorem stop_is_one_shot :
  (∀ s, Reaper.reaper s = Reaper.Running → Reaper.blocked_senders s ≠ 0%nat →
     ∃ s', Reaper.step Reaper.Handshake s = Some s'
       ∧ Reaper.reaper s' = Reaper.Stopped
       ∧ Reaper.ticker_armed s' = false
       ∧ Reaper.stops_returned s' = S (Reaper.stops_returned s)
       ∧ S (Reaper.blocked_senders s') = Reaper.blocked_senders s)
  ∧ (∀ s es s',
       Reaper.reaper s = Reaper.Stopped → Reaper.exec es s = Some s' →
       Reaper.reaper s' = Reaper.Stopped
       ∧ Reaper.stops_returned s' = Reaper.stops_returned s
       ∧ Reaper.ticker_armed s' = Reaper.ticker_armed s
       ∧ (Reaper.blocked_senders s ≤ Reaper.blocked_senders s')%nat)
  ∧ Reaper.exec [Reaper.CallStop; Reaper.Handshake] Reaper.start
    = Some (Reaper.mkState Reaper.Stopped false 0 1).
Proof.
  split; [|split; [|reflexivity]].
  - intros s Hrun Hblk. unfold Reaper.step. rewrite Hrun.
    destruct (Reaper.blocked_senders s) as [|n]; [done|].
    eexists. by split.
  - intros s es s' Hst Hex.
    destruct (stopped_is_terminal es s s' Hst Hex) as (H1 & H2 & H3 & H4 & _).
    done.
Qed.

Lemma stop_is_one_shot_witness :
  ∃ s', Reaper.step Reaper.Handshake (Reaper.mkState Reaper.Running true 1 0)
        = Some s'
    ∧ Reaper.reaper s' = Reaper.Stopped ∧ Reaper.ticker_armed s' = false.
Proof.
  destruct (proj1 stop_is_one_shot (Reaper.mkState Reaper.Running true 1 0))
    as (s' & Hs & Hr & Ht & _).
  - reflexivity.
  - simpl. lia.
  - exists s'. split; [exact Hs|]. split; [exact Hr|exact Ht].
Defined.

(** C8 as stated fails on a second call: after one completed stop, the
    second caller is blocked on the send, and whatever happens next it
    stays blocked and only the first call has returned. *)
Lemma second_stop_blocks_counterexample :
  Reaper.exec [Reaper.CallStop; Reaper.Handshake; Reaper.CallStop] Reaper.start
    = Some (Reaper.mkState Reaper.Stopped false 1 1)
  ∧ ∀ es s', Reaper.exec es (Reaper.mkState Reaper.Stopped false 1 1) = Some s' →
      Reaper.stops_returned s' = 1%nat ∧ (1 ≤ Reaper.blocked_senders s')%nat.
Proof.
  split; [reflexivity|]. intros es s' Hex.
  apply stopped_is_terminal in Hex as (_ & H2 & _ & H4 & _); done.
Qed.

(** * The cache as the list of its items *)

Section listing_facts.
Implicit Types (c : cache) (k : key) (h : handle) (it : item).

Lemma item_at_lookup (hp : gmap handle item) h it :
  hp !! h = Some it → item_at hp h = it.
Proof. intros Hit. unfold item_at. by rewrite Hit. Qed.

Lemma Inv_item_at c h :
  Inv c → h ∈ order c → heap c !! h = Some (item_at (heap c) h).
Proof.
  intros HI Hin. destruct (inv_heap c HI h Hin) as [it Hit].
  by rewrite (item_at_lookup _ _ _ Hit).
Qed.

Lemma listing_elem c it :
  Inv c →
  it ∈ listing c ↔ ∃ h, items c !! ikey it = Some h ∧ heap c !! h = Some it.
Proof.
  intros HI. unfold listing. rewrite list_elem_of_fmap. split.
  - intros (h & -> & Hin). exists h.
    pose proof (Inv_item_at c h HI Hin) as Hit. split; [|done].
    apply (inv_items c HI). eauto.
  - intros (h & Hk & Hit). exists h.
    apply (Inv_lookup c _ _ HI) in Hk as [Hin _].
    by rewrite (item_at_lookup _ _ _ Hit).
Qed.

Lemma listing_absent c k it :
  Inv c → items c !! k = None → it ∈ listing c → ikey it ≠ k.
Proof.
  intros HI Hk Hin <-. apply (listing_elem c it HI) in Hin as (h & Hk' & _).
  congruence.
Qed.

Lemma listing_length c : Inv c → length (listing c) = size (items c).
Proof.
  intros HI. unfold listing. by rewrite length_fmap, (size_items c HI).
Qed.

Lemma filter_all {A} (P : A → Prop) `{∀ x, Decision (P x)} (l : list A) :
  (∀ x, x ∈ l → P x) → filter P l = l.
Proof.
  induction l as [|x l IH]; intros Hall; [done|].
  rewrite filter_cons_True by (apply Hall, list_elem_of_here).
  f_equal. apply IH. intros y Hy. by apply Hall, list_elem_of_further.
Qed.

Lemma filter_fmap_remove {A} (f : handle → A) (P : A → Prop)
    `{∀ x, Decision (P x)} h (l : list handle) :
  (∀ x, x ∈ l → P (f x) ↔ x ≠ h) →
  filter P (f <$> l) = f <$> GoList.Remove h l.
Proof.
  unfold GoList.Remove. induction l as [|x l IH]; intros Hl; [done|].
  assert (filter P (f <$> l) = f <$> filter (λ y, y ≠ h) l) as IH'.
  { apply IH. intros y Hy. by apply Hl, list_elem_of_further. }
  rewrite fmap_cons. destruct (decide (x = h)) as [->|Hne].
  - rewrite filter_cons_False, (filter_cons_False _ h) by
      (rewrite ?(Hl h (list_elem_of_here _ _)); intros Hh; by apply Hh).
    done.
  - rewrite filter_cons_True, (filter_cons_True _ x) by
      (try done; by apply (Hl x (list_elem_of_here _ _))).
    by rewrite fmap_cons, IH'.
Qed.

Lemma listing_remove c k h :
  Inv c → items c !! k = Some h →
  filter (λ it, ikey it ≠ k) (listing c)
  = item_at (heap c) <$> GoList.Remove h (order c).
Proof.
  intros HI Hk. apply filter_fmap_remove. intros x Hx.
  pose proof (Inv_item_at c x HI Hx) as Hit.
  pose proof (Inv_lookup c k h HI Hk) as (Hin & it & Hith & Hkey).
  split.
  - intros Hne ->. apply Hne. by rewrite (item_at_lookup _ _ _ Hith).
  - intros Hne Hkx. apply Hne.
    assert (items c !! k = Some x) by (apply (inv_items c HI); eauto).
    congruence.
Qed.

Lemma listing_keep c k :
  Inv c → items c !! k = None →
  filter (λ it, ikey it ≠ k) (listing c) = listing c.
Proof. intros HI Hk. apply filter_all. intros it. by apply listing_absent. Qed.

Lemma fmap_item_at_insert (hp : gmap handle item) h it (l : list handle) :
  h ∉ l → item_at (<[h := it]> hp) <$> l = item_at hp <$> l.
Proof.
  intros Hn. apply list_fmap_ext. intros i x Hx. unfold item_at.
  rewrite lookup_insert_ne; [done|]. intros ->.
  apply Hn. by eapply list_elem_of_lookup_2.
Qed.

(** What an insertion leaves: the new item first, the other items behind it
    in their order, cut at the capacity. *)
Lemma upsert_listing c k v t c' :
  Inv c → upsert k v t c = Ok c' →
  listing c'
  = take (Z.to_nat (capacity c))
         (mkItem k v t :: filter (λ it, ikey it ≠ k) (listing c)).
Proof.
  intros HI Hup. pose proof (inv_len c HI) as Hle.
  destruct (items c !! k) as [h|] eqn:Hk.
  - pose proof (Inv_lookup c k h HI Hk) as (Hin & it & Hit & Hkey).
    rewrite (upsert_existing c k v t h it HI Hk Hit) in Hup.
    destruct (go_neq (ivalue it) v); [|done]. injection Hup as <-.
    rewrite (listing_remove c k h HI Hk). unfold listing. simpl.
    rewrite fmap_item_at_insert by apply Remove_not_elem_of.
    unfold item_at at 1. rewrite lookup_insert_eq. simpl.
    rewrite take_ge; [done|]. simpl. rewrite length_fmap.
    pose proof (Remove_length h (order c) (inv_nodup c HI) Hin). lia.
  - rewrite (listing_keep c k HI Hk).
    assert (next c ∉ order c) as Hfresh.
    { intros Hin. apply (inv_next c HI) in Hin. lia. }
    destruct (decide (Z.of_nat (length (order c)) = capacity c)) as [Heq|Hne].
    + destruct (upsert_full c k v t HI Hk Heq)
        as (rest & victim & itv & Hl & Hitv & Hkv & Heq').
      rewrite Heq' in Hup. injection Hup as <-. unfold listing. simpl.
      rewrite Hl in Hfresh. apply not_elem_of_app in Hfresh as [Hfresh _].
      rewrite fmap_item_at_insert by done.
      unfold item_at at 1. rewrite lookup_insert_eq. simpl.
      rewrite Hl, fmap_app. rewrite <- Heq, Hl, Nat2Z.id, length_app. simpl.
      rewrite Nat.add_1_r. simpl. f_equal.
      by rewrite <- (length_fmap (item_at (heap c)) rest), take_app_length.
    + rewrite upsert_room in Hup by (done || lia). injection Hup as <-.
      unfold listing. simpl. rewrite fmap_item_at_insert by done.
      unfold item_at at 1. rewrite lookup_insert_eq. simpl.
      rewrite take_ge; [done|]. simpl. rewrite length_fmap. lia.
Qed.

Lemma upsert_new_returns c k v t :
  Inv c → items c !! k = None → ∃ c', upsert k v t c = Ok c'.
Proof.
  intros HI Hk. pose proof (inv_len c HI) as Hle.
  destruct (decide (Z.of_nat (length (order c)) = capacity c)) as [Heq|Hne].
  - destruct (upsert_full c k v t HI Hk Heq)
      as (rest & victim & itv & Hl & Hitv & Hkv & Heq').
    rewrite Heq'. eauto.
  - rewrite upsert_room by (done || lia). eauto.
Qed.

(** [Get] on a listed item that has no expiry or has not reached it. *)
Lemma Get_listed c k now it :
  Inv c → it ∈ listing c → ikey it = k →
  negb (IsZero (ttl it)) && Before (ttl it) now = false →
  ∃ c', Get k now c = Ok (ivalue it, true, c')
    ∧ listing c' = it :: filter (λ x, ikey x ≠ k) (listing c)
    ∧ Inv c'.
Proof.
  intros HI Hin <- Hlive.
  apply (listing_elem c it HI) in Hin as (h & Hk & Hit).
  pose proof (Inv_lookup c _ h HI Hk) as (Hin & _).
  eexists. split; [by rewrite (Get_present c _ now h it HI Hk Hit), Hlive|].
  split.
  - rewrite (listing_remove c _ h HI Hk). unfold listing. simpl.
    by rewrite (item_at_lookup _ _ _ Hit).
  - pose proof (Inv_front c h it HI Hin) as HF.
    rewrite insert_id in HF by done. apply HF. eauto.
Qed.

End listing_facts.

(** * Further properties *)

(** X1: [Clear] empties the index and the list and keeps the capacity; after
    it every [Get] reports the key missing and leaves the cache as it is,
    and the next [Add] links its node alone, evicting nothing. *)
Theorem Clear_then c :
  reachable c →
  items (Clear c) = ∅ ∧ order (Clear c) = [] ∧ Cap (Clear c) = Cap c
  ∧ reachable (Clear c)
  ∧ (∀ k now, Get k now (Clear c) = Ok (DNil, false, Clear c))
  ∧ (∀ k v, ∃ c', Add k v (Clear c) = Ok c'
       ∧ listing c' = [mkItem k v zeroTime]
       ∧ items c' = {[k := next c]}).
Proof.
  intros Hr. pose proof (reachable_Inv c Hr) as HI.
  do 3 (split; [done|]).
  split; [by apply (reachable_step OpClear c)|]. split.
  - intros k now. apply Get_absent. simpl. apply lookup_empty.
  - intros k v. pose proof (inv_cap c HI) as Hcap.
    rewrite Add_upsert, upsert_room by (simpl; (apply lookup_empty || lia)).
    eexists. split; [done|]. unfold listing, item_at. simpl.
    rewrite lookup_insert_eq. split; [done|]. apply insert_empty.
Qed.

Lemma Clear_then_witness :
  Get kA 5 (Clear cache_abc) = Ok (DNil, false, Clear cache_abc).
Proof.
  apply (Clear_then cache_abc).
  apply (reachable_run_ops 3 ops_abc_getA cache3); [reflexivity|].
  vm_compute. reflexivity.
Defined.

Lemma getAllItems_loop_spec c rest :
  ∀ kept fuel ks vs,
    Inv c → order c = kept ++ rest → (length rest ≤ fuel)%nat →
    getAllItems_loop fuel (head rest) c ks vs
    = Some (Ok (ks ++ (ikey <$> (item_at (heap c) <$> rest)),
                vs ++ (ivalue <$> (item_at (heap c) <$> rest)))).
Proof.
  induction rest as [|e rest IH]; intros kept fuel ks vs HI Hl Hfuel.
  - simpl. rewrite !app_nil_r. by destruct fuel.
  - destruct fuel as [|fuel]; simpl in Hfuel; [lia|].
    assert (e ∈ order c) as Hin.
    { rewrite Hl. apply elem_of_app. right. apply list_elem_of_here. }
    pose proof (Inv_item_at c e HI Hin) as Hit.
    pose proof (inv_nodup c HI) as Hnd. rewrite Hl in Hnd.
    simpl. unfold item_of. rewrite Hit, Hl, (Next_mid kept e rest Hnd).
    rewrite (IH (kept ++ [e]) fuel) by (rewrite <- ?app_assoc; (done || lia)).
    by rewrite <- !app_assoc.
Qed.

(** X2: on a reachable cache [getAllItems] returns the keys and the values
    of the listed items, front first: one pair per entry of the index, no
    key twice, exactly the keys the index holds; and [Get] returns the
    listed value of every listed entry that has not expired. *)
Theorem getAllItems_spec c :
  reachable c →
  getAllItems c = Some (Ok (ikey <$> listing c, ivalue <$> listing c))
  ∧ length (listing c) = size (items c)
  ∧ NoDup (ikey <$> listing c)
  ∧ (∀ k, k ∈ ikey <$> listing c ↔ is_Some (items c !! k))
  ∧ (∀ now it, it ∈ listing c → ttl it = zeroTime ∨ now ≤ ttl it →
       ∃ c', Get (ikey it) now c = Ok (ivalue it, true, c')).
Proof.
  intros HI%reachable_Inv. split; [|split; [|split; [|split]]].
  - unfold getAllItems, GoList.Front.
    by rewrite (getAllItems_loop_spec c (order c) [] _ [] [] HI).
  - by apply listing_length.
  - destruct (Inv_lockstep c HI) as (_ & Hnd & _).
    assert (ikey <$> listing c = key_at (heap c) <$> order c) as ->; [|done].
    unfold listing. rewrite <- list_fmap_compose. apply list_fmap_ext.
    intros i h Hh. simpl. unfold key_at, item_at.
    assert (h ∈ order c) as Hin by (by eapply list_elem_of_lookup_2).
    by rewrite (Inv_item_at c h HI Hin).
  - intros k. rewrite list_elem_of_fmap. split.
    + intros (it & -> & Hin). apply (listing_elem c it HI) in Hin as (h & Hk & _).
      eauto.
    + intros [h Hk]. pose proof (Inv_lookup c k h HI Hk) as (_ & it & Hit & <-).
      exists it. split; [done|]. apply (listing_elem c it HI). eauto.
  - intros now it Hin Hlive.
    destruct (Get_listed c (ikey it) now it HI Hin eq_refl) as (c' & HG & _).
    + unfold IsZero, Before, zeroTime in *.
      destruct (Z.eqb_spec (ttl it) 0); [done|].
      destruct (Z.ltb_spec (ttl it) now); [lia|done].
    + eauto.
Qed.

Lemma getAllItems_spec_witness :
  getAllItems cache_abc = Some (Ok ([kA; kC; kB], [DInt 1; DInt 3; DInt 2])).
Proof.
  rewrite (proj1 (getAllItems_spec cache_abc
    (reachable_run_ops 3 ops_abc_getA cache3 cache_abc eq_refl eq_refl))).
  vm_compute. reflexivity.
Defined.

(** X3: after [Add(k, v)], and after [AddWithTTL(k, v, d)] at instant [now],
    the listed items are the new item of [k] (expiry cleared, or [now + d])
    followed by the items of the other keys, unchanged and in their order,
    cut at the capacity. *)
Theorem insert_listing c k v :
  reachable c →
  (∀ c', Add k v c = Ok c' →
     listing c'
     = take (Z.to_nat (capacity c))
            (mkItem k v zeroTime :: filter (λ it, ikey it ≠ k) (listing c)))
  ∧ (∀ d now c', AddWithTTL k v d now c = Ok c' →
       listing c'
       = take (Z.to_nat (capacity c))
              (mkItem k v (now + d)
               :: filter (λ it, ikey it ≠ k) (listing c))).
Proof.
  intros HI%reachable_Inv. split.
  - intros c' HA. rewrite Add_upsert in HA. by apply upsert_listing.
  - intros d now c' HA. rewrite AddWithTTL_upsert in HA.
    by apply upsert_listing.
Qed.

Lemma insert_listing_witness :
  ∃ c', Add kD (DInt 4) cache_abc = Ok c'
    ∧ ikey <$> listing c' = [kD; kA; kC].
Proof.
  destruct (Add kD (DInt 4) cache_abc) as [c'|msg] eqn:HA;
    [|vm_compute in HA; discriminate].
  exists c'. split; [reflexivity|].
  rewrite (proj1 (insert_listing cache_abc kD (DInt 4)
    (reachable_run_ops 3 ops_abc_getA cache3 cache_abc eq_refl eq_refl)) c' HA).
  vm_compute. reflexivity.
Defined.

Lemma Get_listing_Inv c k now v ok c' :
  Inv c → Get k now c = Ok (v, ok, c') →
  (ok = true →
     ∃ it, it ∈ listing c ∧ ikey it = k ∧ v = ivalue it
       ∧ (ttl it = zeroTime ∨ now ≤ ttl it)
       ∧ listing c' = it :: filter (λ x, ikey x ≠ k) (listing c))
  ∧ (ok = false →
       v = DNil
       ∧ listing c' = filter (λ x, ikey x ≠ k) (listing c)
       ∧ ∀ it, it ∈ listing c → ikey it = k →
           ttl it ≠ zeroTime ∧ ttl it < now).
Proof.
  intros HI HG. destruct (items c !! k) as [h|] eqn:Hk.
  - pose proof (Inv_lookup c k h HI Hk) as (Hin & it & Hit & Hkey).
    rewrite (Get_present c k now h it HI Hk Hit) in HG.
    assert (it ∈ listing c) as Hlist.
    { apply (listing_elem c it HI). exists h. by rewrite Hkey. }
    unfold IsZero, Before, zeroTime in *.
    destruct (Z.eqb_spec (ttl it) 0) as [Hz|Hz];
      [|destruct (Z.ltb_spec (ttl it) now) as [Hlt|Hge]];
      simpl in HG; injection HG as <- <- <-.
    + split; [|done]. intros _. exists it. do 4 (split; [done || by left|]).
      rewrite (listing_remove c k h HI Hk). unfold listing. simpl.
      by rewrite (item_at_lookup _ _ _ Hit).
    + split; [done|]. intros _. split; [done|]. split.
      * by rewrite (listing_remove c k h HI Hk).
      * intros it' Hin' Hkey'.
        apply (listing_elem c it' HI) in Hin' as (h' & Hk' & Hit').
        assert (it' = it) as -> by congruence. done.
    + split; [|done]. intros _. exists it. do 4 (split; [done || by right|]).
      rewrite (listing_remove c k h HI Hk). unfold listing. simpl.
      by rewrite (item_at_lookup _ _ _ Hit).
  - rewrite Get_absent in HG by done. injection HG as <- <- <-.
    split; [done|]. intros _. split; [done|]. split.
    + by rewrite listing_keep.
    + intros it Hin Hkey. by destruct (listing_absent c k it HI Hk Hin).
Qed.

(** X4: a [Get(k)] that finds a live entry returns its value and moves its
    item to the front of the listing, the other items keeping their order;
    a [Get(k)] that returns [false] leaves the items of the other keys, in
    their order, and any item of [k] it dropped had its expiry set and
    before the current time. *)
Theorem Get_listing c k now v ok c' :
  reachable c → Get k now c = Ok (v, ok, c') →
  (ok = true →
     ∃ it, it ∈ listing c ∧ ikey it = k ∧ v = ivalue it
       ∧ (ttl it = zeroTime ∨ now ≤ ttl it)
       ∧ listing c' = it :: filter (λ x, ikey x ≠ k) (listing c))
  ∧ (ok = false →
       v = DNil
       ∧ listing c' = filter (λ x, ikey x ≠ k) (listing c)
       ∧ ∀ it, it ∈ listing c → ikey it = k →
           ttl it ≠ zeroTime ∧ ttl it < now).
Proof. intros HI%reachable_Inv. by apply Get_listing_Inv. Qed.

Lemma Get_listing_witness :
  ∃ c', Get kB 5 cache_abc = Ok (DInt 2, true, c')
    ∧ ikey <$> listing c' = kB :: filter (λ k, k ≠ kB) [kA; kC; kB].
Proof.
  destruct (Get kB 5 cache_abc) as [[[v ok] c']|msg] eqn:HG;
    [|vm_compute in HG; discriminate].
  assert (v = DInt 2 ∧ ok = true) as [-> ->].
  { vm_compute in HG. by injection HG as <- <- _. }
  exists c'. split; [reflexivity|].
  destruct (proj1 (Get_listing cache_abc kB 5 _ _ c'
    (reachable_run_ops 3 ops_abc_getA cache3 cache_abc eq_refl eq_refl)
    HG) eq_refl) as (it & Hin & Hkey & _ & _ & ->).
  rewrite fmap_cons, Hkey. vm_compute. reflexivity.
Defined.

Lemma take_app_take {A} (n : nat) (l m : list A) :
  take n (l ++ take n m) = take n (l ++ m).
Proof.
  rewrite !take_app, take_take. do 2 f_equal. lia.
Qed.

Lemma NoDup_fst_eq {A B} (l : list (A * B)) x y :
  NoDup l.*1 → x ∈ l → y ∈ l → x.1 = y.1 → x = y.
Proof.
  induction l as [|z l IH]; simpl; intros Hnd Hx Hy Hxy.
  { by apply elem_of_nil in Hx. }
  apply NoDup_cons in Hnd as [Hz Hnd].
  apply elem_of_cons in Hx as [->|Hx]; apply elem_of_cons in Hy as [->|Hy].
  - done.
  - destruct Hz. rewrite Hxy. by apply list_elem_of_fmap_2.
  - destruct Hz. rewrite <- Hxy. by apply list_elem_of_fmap_2.
  - by apply IH.
Qed.

(** A run of [Add] calls on keys that are new and distinct. *)
Lemma add_all_listing kvs :
  ∀ c, Inv c → NoDup kvs.*1 → (∀ k, k ∈ kvs.*1 → items c !! k = None) →
    ∃ c', add_all kvs c = Ok c' ∧ Inv c' ∧ capacity c' = capacity c
      ∧ listing c'
        = take (Z.to_nat (capacity c)) (reverse (entry <$> kvs) ++ listing c).
Proof.
  induction kvs as [|[k v] kvs IH]; intros c HI Hnd Hnew.
  - exists c. simpl. do 3 (split; [done|]). rewrite take_ge; [done|].
    pose proof (inv_len c HI). unfold listing. rewrite length_fmap. lia.
  - simpl in Hnd. apply NoDup_cons in Hnd as [Hk Hnd].
    assert (items c !! k = None) as Hkc by (apply Hnew, list_elem_of_here).
    destruct (upsert_new_returns c k v zeroTime HI Hkc) as [c1 Hup].
    pose proof (upsert_Inv c k v _ c1 HI Hup) as HI1.
    pose proof (upsert_capacity c k v _ c1 HI Hup) as Hcap1.
    pose proof (upsert_listing c k v _ c1 HI Hup) as Hl1.
    rewrite (listing_keep c k HI Hkc) in Hl1.
    destruct (IH c1 HI1 Hnd) as (c' & Hrun & HI' & Hcap' & Hl').
    { intros k' Hk'. destruct (items c1 !! k') as [h'|] eqn:Hk1; [|done].
      pose proof (Inv_lookup c1 k' h' HI1 Hk1) as (_ & it & Hit & Hkey).
      assert (it ∈ listing c1) as Hin.
      { apply (listing_elem c1 it HI1). exists h'. by rewrite Hkey. }
      rewrite Hl1 in Hin. apply elem_of_take in Hin as (i & Hi & _).
      apply list_elem_of_lookup_2, elem_of_cons in Hi as [->|Hin].
      - simpl in Hkey. by subst.
      - destruct (listing_absent c k' it HI) as []; [|done..].
        apply Hnew. by apply list_elem_of_further. }
    exists c'. simpl. rewrite Add_upsert, Hup. simpl.
    split; [done|]. split; [done|]. split; [congruence|].
    rewrite Hl', Hl1, Hcap1, take_app_take, reverse_cons.
    by rewrite <- app_assoc.
Qed.

(** X5: on a new cache of capacity [cap], [Add] of pairs with distinct keys
    leaves exactly the last [cap] of them, the last one first: [Get] returns
    the value of each of those and reports every earlier key missing. *)
Theorem fill_keeps_last cap kvs :
  0 < cap → NoDup kvs.*1 →
  ∃ c0 c, NewCache cap = (Some c0, None) ∧ add_all kvs c0 = Ok c
    ∧ listing c = take (Z.to_nat cap) (reverse (entry <$> kvs))
    ∧ ∀ now kv, kv ∈ kvs →
        (kv ∈ take (Z.to_nat cap) (reverse kvs) →
           ∃ c', Get kv.1 now c = Ok (kv.2, true, c'))
        ∧ (kv ∉ take (Z.to_nat cap) (reverse kvs) →
             Get kv.1 now c = Ok (DNil, false, c)).
Proof.
  intros Hcap Hnd. exists (mkCache cap ∅ GoList.Init ∅ 0%nat).
  destruct (add_all_listing kvs _ (Inv_new cap Hcap) Hnd)
    as (c & Hrun & HI & _ & Hl).
  { intros k _. apply lookup_empty. }
  simpl in Hl. unfold listing at 2 in Hl. simpl in Hl. rewrite app_nil_r in Hl.
  exists c. split; [by apply NewCache_Some|]. do 2 (split; [done|]).
  intros now kv Hkv. rewrite <- fmap_reverse, <- fmap_take in Hl. split.
  - intros Hin.
    destruct (Get_listed c kv.1 now (entry kv) HI) as (c' & HG & _); eauto.
    rewrite Hl. by apply list_elem_of_fmap_2.
  - intros Hout. apply Get_absent.
    destruct (items c !! kv.1) as [h|] eqn:Hk; [|done].
    pose proof (Inv_lookup c _ h HI Hk) as (_ & it & Hit & Hkey).
    assert (it ∈ listing c) as Hin.
    { apply (listing_elem c it HI). exists h. by rewrite Hkey. }
    rewrite Hl in Hin. apply list_elem_of_fmap in Hin as (kv' & -> & Hin').
    destruct Hout. replace kv with kv'; [done|].
    apply (NoDup_fst_eq kvs); [done| |done|exact Hkey].
    apply elem_of_take in Hin' as (i & Hi & _).
    apply elem_of_reverse. by eapply list_elem_of_lookup_2.
Qed.

Lemma fill_keeps_last_witness :
  ∃ c, add_all [(kA, DInt 1); (kB, DInt 2); (kC, DInt 3); (kD, DInt 4)] cache3
       = Ok c
    ∧ ikey <$> listing c = [kD; kC; kB].
Proof.
  destruct (fill_keeps_last 3
              [(kA, DInt 1); (kB, DInt 2); (kC, DInt 3); (kD, DInt 4)])
    as (c0 & c & Hnew & Hrun & Hl & _).
  - lia.
  - vm_compute. repeat constructor; set_solver.
  - injection Hnew as <-. exists c. split; [exact Hrun|]. rewrite Hl.
    vm_compute. reflexivity.
Defined.

(** X6: on a cache of capacity at least 2, a key that [Get] has just
    returned is not the one the next insertion of a new key evicts: after
    that [Add] or [AddWithTTL], [Get] still returns its value. *)
Theorem read_key_survives_insert c k now v c1 k' v' f :
  reachable c → 2 ≤ capacity c →
  Get k now c = Ok (v, true, c1) →
  items c !! k' = None → inserts k' v' f →
  ∃ c2, f c1 = Ok c2 ∧ ∃ c3, Get k now c2 = Ok (v, true, c3).
Proof.
  intros Hr Hcap HG Hk' Hf. pose proof (reachable_Inv c Hr) as HI.
  pose proof (Get_Inv c k now v true c1 HI HG) as HI1.
  pose proof (Get_capacity c k now v true c1 HI HG) as Hcap1.
  destruct (proj1 (Get_listing_Inv c k now v true c1 HI HG) eq_refl)
    as (it & Hin & Hkey & -> & Hlive & Hl1).
  assert (k ≠ k') as Hne.
  { intros <-. by destruct (listing_absent c k it HI Hk' Hin). }
  assert (items c1 !! k' = None) as Hk1.
  { destruct (items c1 !! k') as [h'|] eqn:Hk1; [|done].
    pose proof (Inv_lookup c1 k' h' HI1 Hk1) as (_ & it' & Hit' & Hkey').
    assert (it' ∈ listing c1) as Hin'.
    { apply (listing_elem c1 it' HI1). exists h'. by rewrite Hkey'. }
    rewrite Hl1 in Hin'. apply elem_of_cons in Hin' as [->|Hin']; [congruence|].
    apply list_elem_of_filter in Hin' as [_ Hin'].
    by destruct (listing_absent c k' it' HI Hk' Hin'). }
  assert (∃ t, f = upsert k' v' t) as [t ->].
  { destruct Hf as [->|(d & now' & ->)]; eauto. }
  destruct (upsert_new_returns c1 k' v' t HI1 Hk1) as [c2 Hup].
  exists c2. split; [done|].
  pose proof (upsert_Inv c1 k' v' t c2 HI1 Hup) as HI2.
  pose proof (upsert_listing c1 k' v' t c2 HI1 Hup) as Hl2.
  rewrite (listing_keep c1 k' HI1 Hk1), Hl1, Hcap1 in Hl2.
  destruct (Z.to_nat (capacity c)) as [|[|n]] eqn:Hn; [lia..|].
  simpl in Hl2.
  destruct (Get_listed c2 k now it HI2) as (c3 & HG3 & _); eauto.
  - rewrite Hl2. apply list_elem_of_further, list_elem_of_here.
  - unfold IsZero, Before, zeroTime in *.
    destruct (Z.eqb_spec (ttl it) 0); [done|].
    destruct (Z.ltb_spec (ttl it) now); [lia|done].
Qed.

Lemma read_key_survives_insert_witness :
  ∃ c2, Add kD (DInt 4) cache_abc = Ok c2
    ∧ ∃ c3, Get kA 5 c2 = Ok (DInt 1, true, c3).
Proof.
  destruct (Get kA 5 cache_abc) as [[[v ok] c1]|msg] eqn:HG;
    [|vm_compute in HG; discriminate].
  assert (v = DInt 1 ∧ ok = true ∧ c1 = cache_abc) as (-> & -> & ->).
  { vm_compute in HG. by injection HG as <- <- <-. }
  apply (read_key_survives_insert cache_abc kA 5 (DInt 1) cache_abc kD (DInt 4)
           (Add kD (DInt 4))).
  - apply (reachable_run_ops 3 ops_abc_getA cache3); [reflexivity|].
    vm_compute. reflexivity.
  - simpl. lia.
  - exact HG.
  - vm_compute. reflexivity.
  - left. reflexivity.
Defined.

(** X7: an entry stored by [AddWithTTL(k, v, d)] at instant [now0] whose
    deadline [now0 + d] is not the zero instant is gone for a [Get] at any
    later instant than the deadline: that [Get] returns [(nil, false)],
    removes the key, and every further [Get] reports it missing. A TTL that
    is zero or negative gives a deadline at or before [now0]. *)
Theorem ttl_entry_expires c k v d now0 c1 now :
  reachable c → AddWithTTL k v d now0 c = Ok c1 →
  now0 + d ≠ zeroTime → now0 + d < now →
  ∃ c2, Get k now c1 = Ok (DNil, false, c2)
    ∧ items c2 !! k = None
    ∧ listing c2 = filter (λ it, ikey it ≠ k) (listing c1)
    ∧ ∀ now', Get k now' c2 = Ok (DNil, false, c2).
Proof.
  intros HI%reachable_Inv HA Hset Hlate. rewrite AddWithTTL_upsert in HA.
  pose proof (upsert_Inv c k v _ c1 HI HA) as HI1.
  destruct (upsert_post c k v _ c1 HI HA) as (h & l & Hk & Hit & Hl).
  eexists. split.
  { rewrite (Get_present c1 k now h _ HI1 Hk Hit). simpl.
    unfold IsZero, Before, TimeAdd, zeroTime in *.
    destruct (Z.eqb_spec (now0 + d) 0); [done|].
    destruct (Z.ltb_spec (now0 + d) now); [done|lia]. }
  simpl. split; [apply lookup_delete_eq|]. split.
  - by rewrite (listing_remove c1 k h HI1 Hk).
  - intros now'. apply Get_absent. simpl. apply lookup_delete_eq.
Qed.

Lemma ttl_entry_expires_witness :
  ∃ c2, Get kA 101 cache_ttl = Ok (DNil, false, c2) ∧ items c2 !! kA = None.
Proof.
  destruct (ttl_entry_expires cache3 kA (DInt 7) 0 100 cache_ttl 101)
    as (c2 & HG & Hk & _).
  - apply (reachable_run_ops 3 [] cache3); reflexivity.
  - vm_compute. reflexivity.
  - unfold zeroTime. lia.
  - lia.
  - exists c2. split; [exact HG|exact Hk].
Defined.

Lemma survivors_none (hp : gmap handle item) clk l :
  ∀ i, (∀ j h, l !! j = Some h →
          ∃ it, hp !! h = Some it ∧ ttl it < clk (i + j)%nat) →
       survivors hp clk i l = [].
Proof.
  induction l as [|x l IH]; intros i Hall; [done|]. simpl.
  destruct (Hall 0%nat x eq_refl) as (it & Hit & Hlt).
  rewrite Hit, Nat.add_0_r in *. unfold Before.
  destruct (Z.ltb_spec (ttl it) (clk i)); [|lia].
  apply IH. intros j h Hj. rewrite Nat.add_succ_comm. by apply (Hall (S j)).
Qed.

Lemma survivors_all (hp : gmap handle item) clk l :
  ∀ i, (∀ j h it, l !! j = Some h → hp !! h = Some it →
          clk (i + j)%nat ≤ ttl it) →
       survivors hp clk i l = l.
Proof.
  induction l as [|x l IH]; intros i Hall; [done|]. simpl.
  assert (survivors hp clk (S i) l = l) as ->.
  { apply IH. intros j h it Hj. rewrite Nat.add_succ_comm.
    by apply (Hall (S j)). }
  destruct (hp !! x) as [it|] eqn:Hit; [|done].
  pose proof (Hall 0%nat x it eq_refl Hit) as Hle.
  rewrite Nat.add_0_r in Hle. unfold Before.
  destruct (Z.ltb_spec (ttl it) (clk i)); [lia|done].
Qed.

Lemma Inv_items_eq c c' :
  Inv c → Inv c' → order c' = order c → heap c' = heap c →
  items c' = items c.
Proof.
  intros HI HI' Ho Hh. apply map_eq. intros k. apply option_eq. intros h.
  by rewrite (inv_items c HI), (inv_items c' HI'), Ho, Hh.
Qed.

(** X8: a sweep in which every node is visited at a clock reading later
    than its stored expiry instant (the zero instant of an entry without
    expiry included) leaves the list and the index empty. *)
Theorem sweep_all_elapsed c clk :
  reachable c →
  (∀ i h it, order c !! i = Some h → heap c !! h = Some it →
     ttl it < clk i) →
  ∃ c', sweep clk c = Some (Ok c') ∧ order c' = [] ∧ items c' = ∅
    ∧ getAllItems c' = Some (Ok ([], [])).
Proof.
  intros HI%reachable_Inv Hall.
  destruct (sweep_spec clk c HI) as (c' & Hs & Ho & _ & _ & _ & HI').
  rewrite survivors_none in Ho.
  - exists c'. do 2 (split; [done|]). split.
    + apply map_empty. intros k. destruct (items c' !! k) as [h|] eqn:Hk; [|done].
      apply (Inv_lookup c' k h HI') in Hk as [Hin _]. rewrite Ho in Hin.
      by apply elem_of_nil in Hin.
    + unfold getAllItems. by rewrite Ho.
  - intros j h Hj.
    assert (h ∈ order c) as Hin by (by eapply list_elem_of_lookup_2).
    destruct (inv_heap c HI h Hin) as [it Hit]. exists it. split; [done|].
    by apply (Hall j h).
Qed.

Lemma sweep_all_elapsed_witness :
  ∃ c', sweep (λ _, 101) cache_mixed = Some (Ok c') ∧ order c' = [].
Proof.
  destruct (sweep_all_elapsed cache_mixed (λ _, 101)) as (c' & Hs & Ho & _).
  - apply (reachable_run_ops 3 ops_mixed cache3); [reflexivity|].
    vm_compute. reflexivity.
  - intros [|[|i]] h it Hi Hit; vm_compute in Hi; [| |discriminate];
      injection Hi as <-; vm_compute in Hit; injection Hit as <-; simpl; lia.
  - exists c'. split; [exact Hs|exact Ho].
Defined.

(** X9: a sweep in which no node is visited after its stored expiry instant
    changes nothing at all. *)
Theorem sweep_nothing_elapsed c clk :
  reachable c →
  (∀ i h it, order c !! i = Some h → heap c !! h = Some it →
     clk i ≤ ttl it) →
  sweep clk c = Some (Ok c).
Proof.
  intros HI%reachable_Inv Hall.
  destruct (sweep_spec clk c HI) as (c' & Hs & Ho & Hh & Hc & Hn & HI').
  rewrite survivors_all in Ho by done.
  pose proof (Inv_items_eq c c' HI HI' Ho Hh) as Hi.
  rewrite Hs. do 2 f_equal. destruct c, c'. simpl in *. by subst.
Qed.

Lemma sweep_nothing_elapsed_witness :
  sweep (λ _, 100) cache_ttl = Some (Ok cache_ttl).
Proof.
  apply (sweep_nothing_elapsed cache_ttl (λ _, 100)).
  - apply (reachable_run_ops 3 [OpAddWithTTL kA (DInt 7) 0 100] cache3);
      [reflexivity|]. vm_compute. reflexivity.
  - intros [|i] h it Hi Hit; vm_compute in Hi; [|discriminate].
    injection Hi as <-. vm_compute in Hit. injection Hit as <-. simpl. lia.
Defined.

Lemma stop_calls_cons e es :
  stop_calls (e :: es)
  = ((if decide (e = Reaper.CallStop) then 1 else 0) + stop_calls es)%nat.
Proof.
  unfold stop_calls. rewrite filter_cons. by destruct (decide _).
Qed.

Lemma reaper_run_invariant es :
  ∀ s s', Reaper.exec es s = Some s' →
    (Reaper.reaper s = Reaper.Running ∧ Reaper.ticker_armed s = true
     ∧ Reaper.stops_returned s = 0%nat
     ∨ Reaper.reaper s = Reaper.Stopped ∧ Reaper.ticker_armed s = false
       ∧ Reaper.stops_returned s = 1%nat) →
    (Reaper.reaper s' = Reaper.Running ∧ Reaper.ticker_armed s' = true
     ∧ Reaper.stops_returned s' = 0%nat
     ∨ Reaper.reaper s' = Reaper.Stopped ∧ Reaper.ticker_armed s' = false
       ∧ Reaper.stops_returned s' = 1%nat)
    ∧ (Reaper.blocked_senders s' + Reaper.stops_returned s'
       = Reaper.blocked_senders s + Reaper.stops_returned s + stop_calls es)%nat.
Proof.
  induction es as [|e es IH]; simpl; intros s s' Hex HJ.
  - injection Hex as <-. split; [done|]. unfold stop_calls. simpl. lia.
  - destruct (Reaper.step e s) as [s1|] eqn:Hstep; [|done]. simpl in Hex.
    rewrite stop_calls_cons.
    destruct s as [ph arm blk ret]. unfold Reaper.step in Hstep. simpl in *.
    destruct e, ph; try done.
    + injection Hstep as <-. destruct (IH _ _ Hex HJ) as [HJ' Hcnt].
      split; [done|]. simpl in *. lia.
    + injection Hstep as <-. destruct (IH _ _ Hex) as [HJ' Hcnt]; [done|].
      split; [done|]. simpl in *. lia.
    + injection Hstep as <-. destruct (IH _ _ Hex) as [HJ' Hcnt]; [done|].
      split; [done|]. simpl in *. lia.
    + destruct blk as [|n]; [done|]. injection Hstep as <-.
      destruct (IH _ _ Hex) as [HJ' Hcnt].
      { right. simpl. destruct HJ as [(_ & _ & ->)|(? & _)]; done. }
      split; [done|]. simpl in *.
      destruct HJ as [(_ & _ & ->)|(? & _)]; [lia|done].
Qed.

(** X10: however the reaper, its ticker and the callers of [StopTTLRemoval]
    interleave after [NewCache], at most one call of [StopTTLRemoval] ever
    returns, it has returned exactly when the reaper is stopped and its
    ticker disarmed, and every other call made so far is blocked on the
    send. *)
Theorem at_most_one_stop_returns es s :
  Reaper.exec es Reaper.start = Some s →
  (Reaper.stops_returned s ≤ 1)%nat
  ∧ (Reaper.stops_returned s = 1%nat ↔ Reaper.reaper s = Reaper.Stopped)
  ∧ (Reaper.ticker_armed s = true ↔ Reaper.reaper s = Reaper.Running)
  ∧ (Reaper.blocked_senders s + Reaper.stops_returned s = stop_calls es)%nat.
Proof.
  intros Hex. destruct (reaper_run_invariant es _ _ Hex) as [HJ Hcnt].
  { left. done. }
  simpl in Hcnt.
  destruct HJ as [(Hr & Ha & Hn)|(Hr & Ha & Hn)]; rewrite Hr, Ha, Hn in *;
    repeat split; (done || lia).
Qed.

Lemma at_most_one_stop_returns_witness :
  ∃ s, Reaper.exec [Reaper.CallStop; Reaper.CallStop; Reaper.Handshake]
         Reaper.start = Some s
    ∧ Reaper.stops_returned s = 1%nat ∧ Reaper.blocked_senders s = 1%nat.
Proof.
  eexists. split; [reflexivity|].
  destruct (at_most_one_stop_returns
              [Reaper.CallStop; Reaper.CallStop; Reaper.Handshake] _ eq_refl)
    as (_ & _ & _ & Hcnt).
  split; [reflexivity|]. simpl in Hcnt. vm_compute in Hcnt. simpl. lia.
Defined.

(** * The drafts *)

Section drafts.
Implicit Types (c : cache) (k : key) (h : handle) (it : item).

Lemma Draft_Get_returns c k now r :
  no_expiry c → Draft.Get k now c = Draft.Returns r → r = Get k now c.
Proof.
  intros Hz. unfold Draft.Get, Get, item_of.
  destruct (items c !! k) as [h|]; [|by intros [= <-]].
  destruct (heap c !! h) as [it|] eqn:Hit; simpl; [|by intros [= <-]].
  rewrite (Hz h it Hit). destruct (After zeroTime now); [done|].
  by intros [= <-].
Qed.

Lemma upsert_heap c k v t c' h it :
  Inv c → upsert k v t c = Ok c' → heap c' !! h = Some it →
  heap c !! h = Some it ∨ it = mkItem k v t.
Proof.
  intros HI Hup. destruct (items c !! k) as [e|] eqn:Hk.
  - pose proof (Inv_lookup c k e HI Hk) as (Hin & ite & Hite & Hkey).
    rewrite (upsert_existing c k v t e ite HI Hk Hite) in Hup.
    destruct (go_neq (ivalue ite) v); [|done]. injection Hup as <-. simpl.
    rewrite lookup_insert. case_decide; [intros [= <-]; by right|by left].
  - pose proof (inv_len c HI) as Hle.
    destruct (decide (Z.of_nat (length (order c)) = capacity c)) as [Heq|Hne].
    + destruct (upsert_full c k v t HI Hk Heq)
        as (rest & victim & itv & Hl & Hitv & Hkv & Heq').
      rewrite Heq' in Hup. injection Hup as <-. simpl.
      rewrite lookup_insert. case_decide; [intros [= <-]; by right|by left].
    + rewrite upsert_room in Hup by (done || lia). injection Hup as <-. simpl.
      rewrite lookup_insert. case_decide; [intros [= <-]; by right|by left].
Qed.

Lemma MainGo_run_op o c c' :
  Inv c → no_expiry c → MainGo.run_op o c = Some c' →
  (∃ o', run_op o' c = Some c') ∧ no_expiry c'.
Proof.
  intros HI Hz Hrun. destruct o as [k v|k now|k|]; simpl in Hrun.
  - split; [by exists (OpAdd k v)|].
    destruct (Add k v c) as [c1|] eqn:HA; [|done]. injection Hrun as <-.
    rewrite Add_upsert in HA. intros h it Hit.
    destruct (upsert_heap c k v _ c1 h it HI HA Hit) as [Hold| ->]; [|done].
    by apply (Hz h).
  - destruct (Draft.Get k now c) as [r|] eqn:HD; [|done].
    apply (Draft_Get_returns c k now r Hz) in HD as ->.
    split; [by exists (OpGet k now)|].
    destruct (Get k now c) as [[[v ok] c1]|] eqn:HG; [|done].
    injection Hrun as <-. destruct (items c !! k) as [h|] eqn:Hk.
    + pose proof (Inv_lookup c k h HI Hk) as (Hin & it & Hit & Hkey).
      rewrite (Get_present c k now h it HI Hk Hit) in HG.
      by destruct (negb (IsZero (ttl it)) && Before (ttl it) now);
        injection HG as <- <- <-.
    + rewrite Get_absent in HG by done. by injection HG as <- <- <-.
  - split; [by exists (OpRemove k)|].
    unfold Remove in Hrun. destruct (items c !! k) as [h|] eqn:Hk.
    + rewrite (deleteItem_present c k h HI Hk) in Hrun. by injection Hrun as <-.
    + rewrite deleteItem_absent in Hrun by done. by injection Hrun as <-.
  - split; [by exists OpClear|]. by injection Hrun as <-.
Qed.

Lemma MainGo_run_ops os :
  ∀ c0 c c', runs c0 c → Inv c → no_expiry c →
    MainGo.run_ops os c = Some c' → runs c0 c' ∧ Inv c' ∧ no_expiry c'.
Proof.
  induction os as [|o os IH]; simpl; intros c0 c c' Hruns HI Hz Hos.
  - by injection Hos as <-.
  - destruct (MainGo.run_op o c) as [c1|] eqn:Ho; [|done]. simpl in Hos.
    destruct (MainGo_run_op o c c1 HI Hz Ho) as [[o' Ho'] Hz1].
    eapply IH; [|by eapply run_op_Inv|done|done]. by eapply runs_step.
Qed.

End drafts.

(** X11: in package [main] no entry ever carries an expiry, so the branch
    of its [Get] that tests [After] and would lock the mutex again is never
    taken: at every clock reading not before the zero instant that [Get]
    returns, and it returns what the final [Get] returns. *)
Theorem main_Get_never_blocks cap c0 os c :
  NewCache cap = (Some c0, None) → MainGo.run_ops os c0 = Some c →
  (∀ it, it ∈ listing c → ttl it = zeroTime)
  ∧ lockstep c
  ∧ ∀ k now, zeroTime ≤ now →
      Draft.Get k now c = Draft.Returns (Get k now c)
      ∧ ∃ v ok c', Get k now c = Ok (v, ok, c')
          ∧ (ok = true ↔ is_Some (items c !! k)).
Proof.
  intros Hnew Hos. apply NewCache_Some in Hnew as [Hcap ->].
  destruct (MainGo_run_ops os _ _ c (runs_refl _) (Inv_new cap Hcap)) as
    (_ & HI & Hz); [by intros h it Hit|done|].
  split; [|split; [by apply Inv_lockstep|]].
  - intros it Hin. apply (listing_elem c it HI) in Hin as (h & _ & Hit).
    by apply (Hz h).
  - intros k now Hnow. destruct (items c !! k) as [h|] eqn:Hk.
    + pose proof (Inv_lookup c k h HI Hk) as (Hin & it & Hit & Hkey).
      split; [by apply (Draft_Get_no_expiry c k now h it Hk Hit (Hz h it Hit))|].
      rewrite (Get_present c k now h it HI Hk Hit), (Hz h it Hit). simpl.
      do 3 eexists. split; [done|]. split; eauto.
    + split; [unfold Draft.Get; by rewrite Hk, Get_absent|].
      rewrite Get_absent by done. do 3 eexists. split; [done|].
      split; [done|]. by intros [? ?].
Qed.

Lemma main_Get_never_blocks_witness :
  ∃ c, MainGo.run_ops
         [MainGo.MAdd kA (DInt 1); MainGo.MAdd kB (DInt 2); MainGo.MGet kA 5;
          MainGo.MRemove kA] cache3 = Some c
    ∧ Draft.Get kB 7 c = Draft.Returns (Get kB 7 c).
Proof.
  eexists. split; [vm_compute; reflexivity|].
  eapply (main_Get_never_blocks 3 cache3
            [MainGo.MAdd kA (DInt 1); MainGo.MAdd kB (DInt 2);
             MainGo.MGet kA 5; MainGo.MRemove kA]).
  - reflexivity.
  - vm_compute. reflexivity.
  - unfold zeroTime. lia.
Defined.

(** X12: in the second draft a [Get] of a key that was stored with [Add]
    never returns, at any clock reading after the zero instant: its test
    takes the entry for expired and locks the mutex again. A [Get] of a key
    stored with [AddWithTTL] returns the value up to the deadline. *)
Theorem part001_Get_after_Add_blocks c k v now :
  reachable c → zeroTime < now →
  (∀ c', Add k v c = Ok c' → Part001.Get k now c' = Draft.Blocks)
  ∧ (∀ d now0 c', AddWithTTL k v d now0 c = Ok c' → now ≤ now0 + d →
       Part001.Get k now c' = Draft.Returns (Ok (v, true, c'))).
Proof.
  intros HI%reachable_Inv Hnow. split.
  - intros c' HA. rewrite Add_upsert in HA.
    destruct (upsert_post c k v _ c' HI HA) as (h & l & Hk & Hit & Hl).
    unfold Part001.Get, item_of. rewrite Hk, Hit. simpl. unfold Before.
    destruct (Z.ltb_spec zeroTime now); [done|lia].
  - intros d now0 c' HA Hle. rewrite AddWithTTL_upsert in HA.
    pose proof (upsert_Inv c k v _ c' HI HA) as HI'.
    destruct (upsert_post c k v _ c' HI HA) as (h & l & Hk & Hit & Hl).
    unfold Part001.Get, item_of. rewrite Hk, Hit. simpl.
    unfold Before, TimeAdd. destruct (Z.ltb_spec (now0 + d) now); [lia|].
    pose proof (inv_nodup c' HI') as Hnd. rewrite Hl in Hnd |- *.
    apply NoDup_cons in Hnd as [Hn _]. rewrite MoveToFront_front by done.
    do 3 f_equal. destruct c'; simpl in *. by subst.
Qed.

Lemma part001_Get_after_Add_blocks_witness :
  ∃ c', Add kA (DInt 1) cache3 = Ok c'
    ∧ Part001.Get kA 5 c' = Draft.Blocks.
Proof.
  eexists. split; [vm_compute; reflexivity|].
  apply (proj1 (part001_Get_after_Add_blocks cache3 kA (DInt 1) 5
    (reachable_run_ops 3 [] cache3 cache3 eq_refl eq_refl)
    ltac:(unfold zeroTime; lia))).
  vm_compute. reflexivity.
Defined.
